(** * Directed graphs with traversal, topological sort and a cycle-checked variant

    A shallow embedding of [student_code.py]: the classes [SortableDigraph],
    [TraversableDigraph] and [DAG].

    - A Python [dict] whose iteration order is observable ([self.adj]) is an
      association list in insertion order; dicts that are only looked up
      ([self.node_data], [self.edge_weights]) are [gmap]s.
    - A Python [set] ([visited]) is a [gset]; since the source mutates one
      shared set through its recursive calls, the set is threaded through
      the calls and returned.
    - A generator is the list of the values it yields, in order.
    - Node identifiers are the hashable values other than [None]: [dfs] and
      [bfs] read [None] as an omitted [start], so an optional argument is an
      [option]. Payloads and weights may be [None], hence [option D] and
      [option W].
    - The recursive searches take a [fuel] argument, the number of frames
      the interpreter still allows, and return [None], the [RecursionError]
      of the source, when it runs out. [topsort_limit], [dfs_limit],
      [_has_path_limit] and [dag_add_edge_limit] run with a given limit;
      [topsort], [dfs], [_has_path] and [dag_add_edge] run with as many
      frames as the graph can need, and give the result of every run that
      the limit does not cut short. The queue loop of [bfs] takes fuel too,
      but no frame: its fuel is always enough. *)

From stdpp Require Import gmap strings list sets relations.

Set Warnings "-clear-no-such-hyp".

(** The edges of the demonstration at the end of the source. *)
Definition dressing : list (string * string) :=
  [("shirt", "tie"); ("shirt", "belt"); ("tie", "jacket"); ("belt", "jacket");
   ("pants", "shoes"); ("pants", "belt"); ("socks", "shoes")].

Section Graph.

Context {Node : Type} `{Countable Node}.
Context {D W : Type}.

(** ** Loops *)

(** [for x in l: s = body(x, s)], where the body may run out of fuel. *)
Fixpoint for_each {A S : Type} (body : A → S → option S) (l : list A) (s : S)
    : option S :=
  match l with
  | [] => Some s
  | x :: l' =>
      match body x s with
      | Some s' => for_each body l' s'
      | None => None
      end
  end.

(** [for x in l: if body(x): return True] followed by [return False];
    the state reached is returned with the answer. *)
Fixpoint for_until {A S : Type} (body : A → S → option (bool * S))
    (l : list A) (s : S) : option (bool * S) :=
  match l with
  | [] => Some (false, s)
  | x :: l' =>
      match body x s with
      | Some (true, s') => Some (true, s')
      | Some (false, s') => for_until body l' s'
      | None => None
      end
  end.

(** ** The adjacency dict *)

(** [node in adj] *)
Fixpoint adj_mem (a : list (Node * list Node)) (node : Node) : bool :=
  match a with
  | [] => false
  | (k, _) :: a' => if decide (k = node) then true else adj_mem a' node
  end.

(** [adj.get(node, [])] *)
Fixpoint adj_get (a : list (Node * list Node)) (node : Node) : list Node :=
  match a with
  | [] => []
  | (k, l) :: a' => if decide (k = node) then l else adj_get a' node
  end.

(** [adj[u].append(v)]; [u] is a key whenever the source runs this, see
    [adj_mem_add_node]. *)
Fixpoint adj_append (a : list (Node * list Node)) (u v : Node)
    : list (Node * list Node) :=
  match a with
  | [] => []
  | (k, l) :: a' =>
      if decide (k = u) then (k, l ++ [v]) :: a'
      else (k, l) :: adj_append a' u v
  end.

(** ** SortableDigraph *)

Record graph : Type := Graph {
  adj : list (Node * list Node);
  node_data : gmap Node (option D);
  edge_weights : gmap (Node * Node) (option W)
}.

(** [__init__] *)
Definition empty_graph : graph :=
  {| adj := []; node_data := ∅; edge_weights := ∅ |}.

Definition add_node (g : graph) (node : Node) (data : option D) : graph :=
  if adj_mem (adj g) node then g
  else {| adj := adj g ++ [(node, [])];
          node_data := <[node := data]> (node_data g);
          edge_weights := edge_weights g |}.

Definition add_edge (g : graph) (u v : Node) (edge_weight : option W) : graph :=
  let g1 := add_node g u None in
  let g2 := add_node g1 v None in
  {| adj := adj_append (adj g2) u v;
     node_data := node_data g2;
     edge_weights := <[(u, v) := edge_weight]> (edge_weights g2) |}.

(** [dict.get] gives Python's [None] both for a missing key and for a
    stored [None]. *)
Definition get_node_value (g : graph) (node : Node) : option D :=
  default None (node_data g !! node).

Definition get_edge_weight (g : graph) (u v : Node) : option W :=
  default None (edge_weights g !! (u, v)).

Definition successors (g : graph) (node : Node) : list Node :=
  adj_get (adj g) node.

Definition predecessors (g : graph) (node : Node) : list Node :=
  (filter (λ kv : Node * list Node, node ∈ kv.2) (adj g)).*1.

Definition get_nodes (g : graph) : list Node := (adj g).*1.

(** Every node the graph mentions, as a key or as a successor; its length
    bounds the depth of every search and the number of queue steps. *)
Definition all_nodes (g : graph) : list Node :=
  concat (map (λ kv : Node * list Node, kv.1 :: kv.2) (adj g)).

Definition fuel_bound (g : graph) : nat := S (length (all_nodes g)).

(** The inner function [visit] of [topsort]; the state is
    [(visited, result)]. *)
Fixpoint visit (fuel : nat) (g : graph) (node : Node)
    (st : gset Node * list Node) : option (gset Node * list Node) :=
  match fuel with
  | 0 => None
  | S fuel' =>
      if decide (node ∈ st.1) then Some st
      else
        match for_each (visit fuel' g) (adj_get (adj g) node)
                ({[node]} ∪ st.1, st.2) with
        | Some st' => Some (st'.1, st'.2 ++ [node])
        | None => None
        end
  end.

Definition topsort (g : graph) : option (list Node) :=
  match for_each (visit (fuel_bound g) g) (get_nodes g) (∅, []) with
  | Some st => Some (reverse st.2)
  | None => None
  end.

Definition top_sort (g : graph) : option (list Node) := topsort g.

(** ** TraversableDigraph *)

(** The start of a traversal: the one given, else the first node in
    insertion order, if the graph has one. *)
Definition default_start (g : graph) (start : option Node) : option Node :=
  match start with
  | Some s => Some s
  | None => head (get_nodes g)
  end.

(** The generator [dfs(start, visited)]: the values yielded so far and the
    shared [visited] set. *)
Fixpoint dfs_fuel (fuel : nat) (g : graph) (start : option Node)
    (visited : option (gset Node)) : option (list Node * gset Node) :=
  match fuel with
  | 0 => None
  | S fuel' =>
      match default_start g start with
      | None => Some ([], default ∅ visited)
      | Some start =>
          let visited := default ∅ visited in
          if decide (start ∈ visited) then Some ([], visited)
          else
            for_each
              (λ neighbor (st : list Node * gset Node),
                 if decide (neighbor ∈ st.2) then Some st
                 else
                   match dfs_fuel fuel' g (Some neighbor) (Some st.2) with
                   | Some r => Some (st.1 ++ neighbor :: r.1, r.2)
                   | None => None
                   end)
              (adj_get (adj g) start) ([], {[start]} ∪ visited)
      end
  end.

(** [list(g.dfs(start))] *)
Definition dfs (g : graph) (start : option Node) : option (list Node) :=
  fst <$> dfs_fuel (fuel_bound g) g start None.

(** The inner [for] loop of [bfs]; the state is [(queue, visited)]. *)
Definition bfs_enqueue (neighbors : list Node) (st : list Node * gset Node)
    : list Node * gset Node :=
  foldl (λ (st : list Node * gset Node) neighbor,
           if decide (neighbor ∈ st.2) then st
           else (st.1 ++ [neighbor], {[neighbor]} ∪ st.2))
        st neighbors.

(** The [while queue] loop of [bfs]; the result is what it yields. *)
Fixpoint bfs_loop (fuel : nat) (g : graph) (queue : list Node)
    (visited : gset Node) (first : bool) : option (list Node) :=
  match queue with
  | [] => Some []
  | node :: queue =>
      match fuel with
      | 0 => None
      | S fuel' =>
          let st := bfs_enqueue (adj_get (adj g) node) (queue, visited) in
          match bfs_loop fuel' g st.1 st.2 false with
          | Some out => Some (if first then out else node :: out)
          | None => None
          end
      end
  end.

(** [list(g.bfs(start))] *)
Definition bfs (g : graph) (start : option Node) : option (list Node) :=
  match get_nodes g with
  | [] => Some []
  | k :: _ =>
      let start := default k start in
      bfs_loop (fuel_bound g) g [start] {[start]} true
  end.

(** ** DAG *)

(** [_has_path(start, end, visited)]: the answer and the shared [visited]
    set. *)
Fixpoint _has_path_fuel (fuel : nat) (g : graph) (start end_ : Node)
    (visited : gset Node) : option (bool * gset Node) :=
  match fuel with
  | 0 => None
  | S fuel' =>
      if decide (start = end_) then Some (true, visited)
      else
        for_until
          (λ neighbor (visited : gset Node),
             if decide (neighbor ∈ visited) then Some (false, visited)
             else _has_path_fuel fuel' g neighbor end_ visited)
          (adj_get (adj g) start) ({[start]} ∪ visited)
  end.

(** [self._has_path(start, end)], with [visited=None]. *)
Definition _has_path (g : graph) (start end_ : Node) : option bool :=
  fst <$> _has_path_fuel (fuel_bound g) g start end_ ∅.

(** [ValueError(f"Adding edge ({u} -> {v}) would create a cycle")], and the
    [RecursionError] of the interpreter. *)
Inductive exn : Type :=
  | ValueError (u v : Node)
  | RecursionError.

(** How a call ends: it returns or raises, and leaves a graph behind. *)
Inductive outcome : Type :=
  | Returned (g : graph)
  | Raised (e : exn) (g : graph).

Definition dag_add_edge (g : graph) (u v : Node) (edge_weight : option W)
    : option outcome :=
  match _has_path g v u with
  | None => None
  | Some true => Some (Raised (ValueError u v) g)
  | Some false => Some (Returned (add_edge g u v edge_weight))
  end.

(** [for u, v in es: dag.add_edge(u, v)], stopping at the first call that
    raises. *)
Fixpoint dag_add_edges (g : graph) (es : list (Node * Node)) : option outcome :=
  match es with
  | [] => Some (Returned g)
  | (u, v) :: es' =>
      match dag_add_edge g u v None with
      | Some (Returned g') => dag_add_edges g' es'
      | o => o
      end
  end.

(** ** Paths and the states a DAG can reach *)

(** [v] is a direct successor of [u]. *)
Definition edge (g : graph) (u v : Node) : Prop := v ∈ successors g u.

(** No node reaches itself through one or more edges. *)
Definition acyclic (g : graph) : Prop := ∀ x, ¬ tc (edge g) x x.

(** Every successor is itself a node of the graph. *)
Definition closed (g : graph) : Prop :=
  ∀ u v, edge g u v → v ∈ get_nodes g.

Definition nodes_set (g : graph) : gset Node := list_to_set (all_nodes g).

(** The graphs a [DAG] object goes through: it starts empty and changes
    only by [add_node] and by calls of [add_edge] that return. *)
Inductive dag_reachable : graph → Prop :=
  | dag_init : dag_reachable empty_graph
  | dag_add_node g node data :
      dag_reachable g → dag_reachable (add_node g node data)
  | dag_add_edge_ok g u v edge_weight g' :
      dag_reachable g →
      dag_add_edge g u v edge_weight = Some (Returned g') →
      dag_reachable g'.

(** ** The recursion limit

    [visit], [dfs] and [_has_path] call themselves once per node of the
    path they follow, and each call takes a frame of the interpreter. The
    [fuel] of [visit], [dfs_fuel] and [_has_path_fuel] counts the frames
    still allowed, and their [None] is the [RecursionError] raised when a
    call finds none left. The entry points below run with [limit] frames;
    [topsort], [dfs], [_has_path] and [dag_add_edge] above are the runs
    with [fuel_bound g] frames, which the limit never cuts short. *)

Definition topsort_limit (limit : nat) (g : graph) : option (list Node) :=
  match for_each (visit limit g) (get_nodes g) (∅, []) with
  | Some st => Some (reverse st.2)
  | None => None
  end.

Definition dfs_limit (limit : nat) (g : graph) (start : option Node)
    : option (list Node) :=
  fst <$> dfs_fuel limit g start None.

Definition _has_path_limit (limit : nat) (g : graph) (start end_ : Node)
    : option bool :=
  fst <$> _has_path_fuel limit g start end_ ∅.

(** [DAG.add_edge] with [limit] frames for [_has_path]; nothing is written
    before [_has_path] has returned. *)
Definition dag_add_edge_limit (limit : nat) (g : graph) (u v : Node)
    (edge_weight : option W) : outcome :=
  match _has_path_limit limit g v u with
  | None => Raised RecursionError g
  | Some true => Raised (ValueError u v) g
  | Some false => Returned (add_edge g u v edge_weight)
  end.

(** The number of identifiers the graph mentions; in a graph built by
    [add_node] and [add_edge] it is the number of its nodes. *)
Definition node_count (g : graph) : nat := size (nodes_set g).

(** [add_edge(0, 1); add_edge(1, 2); ...; add_edge(n - 1, n)] on an empty
    graph, the identifiers taken through [node_of]. *)
Fixpoint chain (node_of : nat → Node) (n : nat) : graph :=
  match n with
  | 0 => empty_graph
  | S m => add_edge (chain node_of m) (node_of m) (node_of n) None
  end.

(** The graphs a [SortableDigraph] or [TraversableDigraph] object goes
    through: it starts empty and changes only by [add_node] and
    [add_edge]. *)
Inductive built : graph → Prop :=
  | built_init : built empty_graph
  | built_add_node g node data : built g → built (add_node g node data)
  | built_add_edge g u v edge_weight :
      built g → built (add_edge g u v edge_weight).

(** ** Example graphs *)

(** [add_edge(a, b); add_edge(a, c); add_edge(b, d); add_edge(c, d)] on an
    empty graph. *)
Definition diamond (a b c d : Node) : graph :=
  add_edge (add_edge (add_edge (add_edge empty_graph a b None) a c None)
              b d None) c d None.

(** [add_edge(a, b)] on an empty graph. *)
Definition single_edge (a b : Node) : graph := add_edge empty_graph a b None.

(** [add_node(a); add_node(b)] on an empty graph. *)
Definition two_nodes (a b : Node) : graph :=
  add_node (add_node empty_graph a None) b None.

(** [add_edge(a, b); add_edge(b, a)] on an empty base graph. *)
Definition two_cycle (a b : Node) : graph :=
  add_edge (add_edge empty_graph a b None) b a None.

(** ** The states of the topological sort *)

(** [st] continues [st0]: some nodes, all new and all different, were
    marked visited and appended to the result. *)
Definition grown (st0 st : gset Node * list Node) : Prop :=
  ∃ new, st.2 = st0.2 ++ new ∧ st.1 = st0.1 ∪ list_to_set new ∧
         NoDup new ∧ ∀ x, x ∈ new → x ∉ st0.1.

(** In the postorder [R] every successor of a finished node finished
    before it. *)
Definition finished_ok (g : graph) (R : list Node) : Prop :=
  ∀ i x y, R !! i = Some x → edge g x y → ∃ j, j < i ∧ R !! j = Some y.

(** Every visited node has finished or is still open, that is in [G]. *)
Definition visited_ok (G : gset Node) (st : gset Node * list Node) : Prop :=
  ∀ x, x ∈ st.1 → x ∈ st.2 ∨ x ∈ G.

(** ** The states of the breadth-first search *)

(** The queue is [q1 ++ q2]: [q1] holds nodes at distance [d] from [s],
    [q2] nodes at distance [d + 1]; the visited nodes are those within
    distance [d] and those of [q2]; every node within distance [d] that has
    left the queue has all its successors visited. *)
Definition bfs_inv (g : graph) (s : Node) (d : nat) (q1 q2 : list Node)
    (V : gset Node) : Prop :=
  (∀ x, x ∈ q1 →
     bsteps (edge g) d s x ∧ ∀ k, k < d → ¬ bsteps (edge g) k s x) ∧
  (∀ x, x ∈ q2 → bsteps (edge g) (S d) s x ∧ ¬ bsteps (edge g) d s x) ∧
  (∀ x, x ∈ V ↔ bsteps (edge g) d s x ∨ x ∈ q2) ∧
  (∀ x y, bsteps (edge g) d s x → x ∉ q1 → edge g x y → y ∈ V).

(** In [out] a later node is never closer to [s] than an earlier one. *)
Definition by_distance (g : graph) (s : Node) (out : list Node) : Prop :=
  ∀ i j x y, i < j → out !! i = Some x → out !! j = Some y →
    ∀ k, bsteps (edge g) k s y → bsteps (edge g) k s x.

(** * Properties *)

(** ** The adjacency dict *)

Lemma adj_mem_keys (a : list (Node * list Node)) node :
  adj_mem a node = true ↔ node ∈ a.*1.
Proof.
  induction a as [|[k l] a IH]; simpl.
  - split; [done | by intros ?%elem_of_nil].
  - rewrite elem_of_cons, <- IH. case_decide; subst; intuition congruence.
Qed.

Lemma adj_get_new (a : list (Node * list Node)) node x :
  adj_get (a ++ [(node, [])]) x = adj_get a x.
Proof.
  induction a as [|[k l] a IH]; simpl.
  - by case_decide.
  - by case_decide.
Qed.

Lemma adj_get_append (a : list (Node * list Node)) u v x :
  adj_mem a u = true →
  adj_get (adj_append a u v) x =
    if decide (x = u) then adj_get a u ++ [v] else adj_get a x.
Proof.
  induction a as [|[k l] a IH]; simpl; [done|].
  intros Hm. destruct (decide (k = u)) as [->|Hk]; simpl.
  - destruct (decide (u = x)) as [->|Hx].
    + by rewrite decide_True.
    + by rewrite decide_False by congruence.
  - destruct (decide (k = x)) as [->|Hx].
    + by rewrite decide_False by congruence.
    + by apply IH.
Qed.

Lemma adj_append_keys (a : list (Node * list Node)) u v :
  (adj_append a u v).*1 = a.*1.
Proof.
  induction a as [|[k l] a IH]; simpl; [done|].
  case_decide; csimpl; [done|]. by rewrite IH.
Qed.

Lemma adj_get_not_key (a : list (Node * list Node)) node :
  node ∉ a.*1 → adj_get a node = [].
Proof.
  induction a as [|[k l] a IH]; simpl; [done|].
  rewrite not_elem_of_cons. intros [? ?]. rewrite decide_False by done. auto.
Qed.

(** ** add_node and add_edge *)

Lemma get_nodes_add_node g node data :
  get_nodes (add_node g node data) =
    if adj_mem (adj g) node then get_nodes g else get_nodes g ++ [node].
Proof.
  unfold add_node, get_nodes. destruct (adj_mem (adj g) node); simpl; [done|].
  by rewrite fmap_app.
Qed.

Lemma adj_mem_add_node g node data :
  adj_mem (adj (add_node g node data)) node = true.
Proof.
  apply adj_mem_keys. fold (get_nodes (add_node g node data)).
  rewrite get_nodes_add_node.
  destruct (adj_mem (adj g) node) eqn:E.
  - by apply adj_mem_keys.
  - set_solver.
Qed.

Lemma elem_of_get_nodes_add_node g node data x :
  x ∈ get_nodes (add_node g node data) ↔ x ∈ get_nodes g ∨ x = node.
Proof.
  rewrite get_nodes_add_node. destruct (adj_mem (adj g) node) eqn:E.
  - apply adj_mem_keys in E. unfold get_nodes. naive_solver.
  - set_solver.
Qed.

Lemma successors_add_node g node data x :
  successors (add_node g node data) x = successors g x.
Proof.
  unfold successors, add_node. destruct (adj_mem (adj g) node); simpl; [done|].
  apply adj_get_new.
Qed.

Lemma get_nodes_add_edge g u v w x :
  x ∈ get_nodes (add_edge g u v w) ↔ x ∈ get_nodes g ∨ x = u ∨ x = v.
Proof.
  unfold add_edge, get_nodes at 1. simpl. rewrite adj_append_keys.
  fold (get_nodes (add_node (add_node g u None) v None)).
  rewrite !elem_of_get_nodes_add_node. tauto.
Qed.

Lemma successors_add_edge g u v w x :
  successors (add_edge g u v w) x =
    if decide (x = u) then successors g u ++ [v] else successors g x.
Proof.
  unfold successors at 1, add_edge. simpl.
  rewrite adj_get_append.
  - fold (successors (add_node (add_node g u None) v None) u).
    fold (successors (add_node (add_node g u None) v None) x).
    by rewrite !successors_add_node.
  - apply adj_mem_keys. fold (get_nodes (add_node (add_node g u None) v None)).
    rewrite !elem_of_get_nodes_add_node. auto.
Qed.

Lemma edge_add_node g node data x y :
  edge (add_node g node data) x y ↔ edge g x y.
Proof. unfold edge. by rewrite successors_add_node. Qed.

Lemma edge_add_edge g u v w x y :
  edge (add_edge g u v w) x y ↔ edge g x y ∨ (x = u ∧ y = v).
Proof.
  unfold edge. rewrite successors_add_edge. case_decide; subst.
  - rewrite elem_of_app, list_elem_of_singleton. naive_solver.
  - naive_solver.
Qed.

(** ** Fuel: the measure that bounds every search *)

Lemma size_list_to_set_le (l : list Node) :
  size (list_to_set l : gset Node) ≤ length l.
Proof.
  induction l as [|x l IH].
  - rewrite list_to_set_nil, size_empty. done.
  - rewrite list_to_set_cons, size_union_alt, size_singleton. cbn [length].
    pose proof (subseteq_size (list_to_set l ∖ {[x]}) (list_to_set l : gset Node)
                  ltac:(set_solver)). lia.
Qed.

Lemma measure_bound g (V : gset Node) :
  size (nodes_set g ∖ V) < fuel_bound g.
Proof.
  unfold fuel_bound, nodes_set.
  pose proof (size_list_to_set_le (all_nodes g)).
  pose proof (subseteq_size (list_to_set (all_nodes g) ∖ V)
                (list_to_set (all_nodes g) : gset Node) ltac:(set_solver)). lia.
Qed.

Lemma measure_mono (U V V' : gset Node) :
  V ⊆ V' → size (U ∖ V') ≤ size (U ∖ V).
Proof. intros. apply subseteq_size. set_solver. Qed.

Lemma measure_step (U V : gset Node) x :
  x ∈ U → x ∉ V → size (U ∖ ({[x]} ∪ V)) < size (U ∖ V).
Proof. intros. apply subset_size. set_solver. Qed.

Lemma edge_nodes_set g u v :
  edge g u v → u ∈ nodes_set g ∧ v ∈ nodes_set g.
Proof.
  unfold edge, successors, nodes_set, all_nodes.
  induction (adj g) as [|[k l] a IH]; simpl.
  - by intros ?%elem_of_nil.
  - case_decide; subst; set_solver.
Qed.

(** ** _has_path decides reachability *)

Lemma has_path_fuel_total fuel g s e (V : gset Node) :
  size (nodes_set g ∖ V) < fuel → s ∉ V →
  ∃ b V', _has_path_fuel fuel g s e V = Some (b, V') ∧ V ⊆ V'.
Proof.
  revert s V. induction fuel as [|fuel IH]; intros s V Hf Hs; [lia|].
  simpl. case_decide; [by eauto|].
  assert (∀ l V1,
    (∀ x, x ∈ l → x ∈ nodes_set g ∧ size (nodes_set g ∖ V1) < fuel) →
    ∃ b V', for_until (λ neighbor (visited : gset Node),
               if decide (neighbor ∈ visited) then Some (false, visited)
               else _has_path_fuel fuel g neighbor e visited) l V1
            = Some (b, V') ∧ V1 ⊆ V') as Hloop.
  { induction l as [|x l IHl]; intros V1 Hl; simpl; [by eauto|].
    destruct (Hl x) as [Hx Hlt]; [set_solver|].
    case_decide.
    - apply IHl. intros y Hy. apply Hl. set_solver.
    - destruct (IH x V1) as (b & V2 & -> & Hsub); [done..|].
      destruct b; [by eauto|].
      destruct (IHl V2) as (b & V' & -> & Hsub').
      + intros y Hy. split; [apply Hl; set_solver|].
        pose proof (measure_mono (nodes_set g) V1 V2 Hsub). lia.
      + exists b, V'. split; [done|]. set_solver. }
  destruct (Hloop (adj_get (adj g) s) ({[s]} ∪ V)) as (b & V' & -> & Hsub).
  - intros x Hx. apply edge_nodes_set in Hx as [Hs' Hx]. split; [done|].
    pose proof (measure_step (nodes_set g) V s Hs' Hs). lia.
  - exists b, V'. split; [done|]. set_solver.
Qed.

Lemma has_path_fuel_true fuel g s e (V V' : gset Node) :
  _has_path_fuel fuel g s e V = Some (true, V') → rtc (edge g) s e.
Proof.
  revert s V V'. induction fuel as [|fuel IH]; intros s V V'; simpl; [done|].
  case_decide; [by subst|].
  assert (∀ l V1,
    for_until (λ neighbor (visited : gset Node),
               if decide (neighbor ∈ visited) then Some (false, visited)
               else _has_path_fuel fuel g neighbor e visited) l V1
      = Some (true, V') →
    ∃ x, x ∈ l ∧ rtc (edge g) x e) as Hloop.
  { induction l as [|x l IHl]; intros V1; simpl; [done|].
    case_decide.
    - intros (y & ? & ?)%IHl. exists y. set_solver.
    - destruct (_has_path_fuel fuel g x e V1) as [[[] V2]|] eqn:E; [|  |done].
      + intros _. exists x. split; [set_solver|]. by eapply IH.
      + intros (y & ? & ?)%IHl. exists y. set_solver. }
  intros (x & Hx & Hp)%Hloop. by eapply rtc_l.
Qed.

Lemma has_path_fuel_false fuel g s e (V V' : gset Node) :
  _has_path_fuel fuel g s e V = Some (false, V') →
  V ⊆ V' ∧ s ∈ V' ∧ (e ∈ V' → e ∈ V) ∧
  (∀ x y, x ∈ V' → x ∉ V → edge g x y → y ∈ V').
Proof.
  revert s V V'. induction fuel as [|fuel IH]; intros s V V'; simpl; [done|].
  case_decide as Hse; [done|].
  assert (∀ l V1,
    for_until (λ neighbor (visited : gset Node),
               if decide (neighbor ∈ visited) then Some (false, visited)
               else _has_path_fuel fuel g neighbor e visited) l V1
      = Some (false, V') →
    V1 ⊆ V' ∧ (∀ x, x ∈ l → x ∈ V') ∧ (e ∈ V' → e ∈ V1) ∧
    (∀ x y, x ∈ V' → x ∉ V1 → edge g x y → y ∈ V')) as Hloop.
  { induction l as [|x l IHl]; intros V1; simpl.
    - intros [= ->]. set_solver.
    - case_decide.
      + intros (? & ? & ? & ?)%IHl. set_solver.
      + destruct (_has_path_fuel fuel g x e V1) as [[[] V2]|] eqn:E; [done| |done].
        apply IH in E as (? & ? & ? & Hcl1).
        intros (? & ? & ? & Hcl2)%IHl. split_and!; [set_solver..|].
        intros a b Ha Hna Hab. destruct (decide (a ∈ V2)).
        * set_solver.
        * eauto. }
  intros (? & Hnb & ? & Hcl)%Hloop. split_and!; [set_solver..|].
  intros a b Ha Hna Hab. destruct (decide (a = s)) as [->|].
  - by apply Hnb.
  - apply (Hcl a b); [done|set_solver|done].
Qed.

Lemma has_path_total g s e : ∃ b, _has_path g s e = Some b.
Proof.
  unfold _has_path.
  destruct (has_path_fuel_total (fuel_bound g) g s e ∅) as (b & V' & -> & _).
  - apply measure_bound.
  - set_solver.
  - by exists b.
Qed.

Lemma has_path_true g s e : _has_path g s e = Some true → rtc (edge g) s e.
Proof.
  unfold _has_path.
  destruct (_has_path_fuel _ g s e ∅) as [[[] V']|] eqn:E; simpl; [|done..].
  intros _. by eapply has_path_fuel_true.
Qed.

Lemma has_path_false g s e : _has_path g s e = Some false → ¬ rtc (edge g) s e.
Proof.
  unfold _has_path.
  destruct (_has_path_fuel _ g s e ∅) as [[[] V']|] eqn:E; simpl; [done| |done].
  intros _ Hp. apply has_path_fuel_false in E as (_ & Hs & He & Hcl).
  assert (e ∈ V') as Hin.
  { clear He. induction Hp as [|x y z Hxy _ IHp]; [done|].
    apply IHp. eapply Hcl; [done|set_solver|done]. }
  set_solver.
Qed.

(** [_has_path(start, end)] returns, and returns [True] exactly when [end]
    is reachable from [start] through zero or more edges. *)
Lemma has_path_spec g s e :
  ∃ b, _has_path g s e = Some b ∧ (b = true ↔ rtc (edge g) s e).
Proof.
  destruct (has_path_total g s e) as [b Hb]. exists b. split; [done|].
  destruct b.
  - split; [|done]. intros _. by apply has_path_true.
  - split; [done|]. intros Hp. by apply has_path_false in Hb.
Qed.

(** ** Cycles *)

Lemma tc_first_step (R : relation Node) x z :
  tc R x z → ∃ y, R x y ∧ rtc R y z.
Proof.
  intros [a b Hab|a b c Hab Hbc].
  - exists b. split; [done|]. apply rtc_refl.
  - exists b. split; [done|]. by apply tc_rtc.
Qed.

Lemma acyclic_empty : acyclic empty_graph.
Proof.
  intros x (y & Hxy & _)%tc_first_step.
  unfold edge, successors in Hxy. simpl in Hxy. by apply elem_of_nil in Hxy.
Qed.

Lemma tc_add_node g node data a b :
  tc (edge (add_node g node data)) a b → tc (edge g) a b.
Proof.
  induction 1 as [a b Hab|a b c Hab _ IH].
  - apply tc_once. by apply edge_add_node in Hab.
  - eapply tc_l; [|done]. by apply edge_add_node in Hab.
Qed.

Lemma acyclic_add_node g node data : acyclic g → acyclic (add_node g node data).
Proof. intros Hg x Hx. apply (Hg x). by eapply tc_add_node. Qed.

(** A path of the graph with the edge [(u, v)] added either avoids the new
    edge, or reaches [u] before it and leaves from [v] after it. *)
Lemma rtc_add_edge g u v w a b :
  rtc (edge (add_edge g u v w)) a b →
  rtc (edge g) a b ∨ (rtc (edge g) a u ∧ rtc (edge g) v b).
Proof.
  induction 1 as [a|a c b Hac _ IH].
  - left. apply rtc_refl.
  - apply edge_add_edge in Hac as [Hac|[-> ->]].
    + destruct IH as [IH|[IH1 IH2]].
      * left. by eapply rtc_l.
      * right. split; [by eapply rtc_l|done].
    + right. split; [apply rtc_refl|]. by destruct IH as [IH|[_ IH]].
Qed.

Lemma acyclic_add_edge g u v w :
  acyclic g → ¬ rtc (edge g) v u → acyclic (add_edge g u v w).
Proof.
  intros Hg Hvu x (y & Hxy & Hyx)%tc_first_step.
  apply rtc_add_edge in Hyx. apply edge_add_edge in Hxy as [Hxy|[-> ->]].
  - destruct Hyx as [Hyx|[Hyu Hvx]].
    + apply (Hg x). eapply tc_rtc_r; [by apply tc_once|done].
    + apply Hvu. eapply rtc_trans; [done|]. by eapply rtc_l.
  - by destruct Hyx as [Hyx|[Hyx _]].
Qed.

Lemma dag_add_edge_cases g u v w :
  (rtc (edge g) v u ∧
     dag_add_edge g u v w = Some (Raised (ValueError u v) g)) ∨
  (¬ rtc (edge g) v u ∧
     dag_add_edge g u v w = Some (Returned (add_edge g u v w))).
Proof.
  unfold dag_add_edge.
  destruct (has_path_total g v u) as [[] Hb]; rewrite Hb.
  - left. split; [|done]. by apply has_path_true.
  - right. split; [|done]. by apply has_path_false.
Qed.

(** ** Loop rules *)

Lemma for_each_ind {A S : Type} (body : A → S → option S)
    (P : list A → S → Prop) l s s' :
  for_each body l s = Some s' →
  P [] s →
  (∀ pre x s1 s2, x ∈ l → P pre s1 → body x s1 = Some s2 → P (pre ++ [x]) s2) →
  P l s'.
Proof.
  intros Hrun H0 Hstep.
  assert (∀ l' pre s1, (∀ x, x ∈ l' → x ∈ l) → P pre s1 →
            for_each body l' s1 = Some s' → P (pre ++ l') s') as Hgen.
  { induction l' as [|x l' IH]; intros pre s1 Hin Hpre; simpl.
    - intros [= ->]. by rewrite app_nil_r.
    - destruct (body x s1) as [s2|] eqn:E; [|done]. intros Hl'.
      rewrite (cons_middle x pre l'), app_assoc. apply (IH _ s2).
      + intros y Hy. apply Hin. set_solver.
      + eapply Hstep; [apply Hin; set_solver|done..].
      + done. }
  by apply (Hgen l [] s).
Qed.

Lemma for_each_total {A S : Type} (body : A → S → option S)
    (P : S → Prop) l s :
  P s →
  (∀ x s1, x ∈ l → P s1 → ∃ s2, body x s1 = Some s2 ∧ P s2) →
  ∃ s', for_each body l s = Some s' ∧ P s'.
Proof.
  revert s. induction l as [|x l IH]; intros s Hs Hstep; simpl; [by eauto|].
  destruct (Hstep x s) as (s2 & -> & Hs2); [set_solver|done|].
  apply IH; [done|]. intros y s1 Hy. apply Hstep. set_solver.
Qed.

(** ** topsort returns *)

Lemma visit_total fuel g node (st : gset Node * list Node) :
  size (nodes_set g ∖ st.1) < fuel →
  ∃ st', visit fuel g node st = Some st' ∧ st.1 ⊆ st'.1.
Proof.
  revert node st. induction fuel as [|fuel IH]; intros node st Hf; [lia|].
  simpl. case_decide as Hn; [by eauto|].
  destruct (for_each_total (visit fuel g)
              (λ st1 : gset Node * list Node, {[node]} ∪ st.1 ⊆ st1.1)
              (adj_get (adj g) node) ({[node]} ∪ st.1, st.2))
    as (st' & -> & Hsub); [done| |].
  - intros x st1 Hx Hsub. apply edge_nodes_set in Hx as [Hnode _].
    destruct (IH x st1) as (st2 & -> & Hsub2).
    + pose proof (measure_step (nodes_set g) st.1 node Hnode Hn).
      pose proof (measure_mono (nodes_set g) _ _ Hsub). lia.
    + exists st2. split; [done|]. set_solver.
  - eexists. split; [done|]. simpl. set_solver.
Qed.

Lemma topsort_total g : ∃ ts, topsort g = Some ts.
Proof.
  unfold topsort.
  destruct (for_each_total (visit (fuel_bound g) g)
              (λ _ : gset Node * list Node, True) (get_nodes g) (∅, []))
    as (st' & -> & _); [done| |by eauto].
  intros x st1 _ _.
  destruct (visit_total (fuel_bound g) g x st1) as (st2 & -> & _);
    [apply measure_bound|by eauto].
Qed.

(** ** topsort lists every node once *)

Lemma grown_refl (st : gset Node * list Node) : grown st st.
Proof.
  exists []. rewrite app_nil_r. split_and!; [done|set_solver|constructor|].
  by intros x ?%elem_of_nil.
Qed.

Lemma grown_trans (st0 st1 st2 : gset Node * list Node) :
  grown st0 st1 → grown st1 st2 → grown st0 st2.
Proof.
  intros (n1 & HR1 & HV1 & Hnd1 & Hnew1) (n2 & HR2 & HV2 & Hnd2 & Hnew2).
  exists (n1 ++ n2). split_and!.
  - by rewrite HR2, HR1, app_assoc.
  - rewrite HV2, HV1, list_to_set_app_L. set_solver.
  - apply NoDup_app. split_and!; [done| |done].
    intros x Hx1 Hx2. apply (Hnew2 x Hx2). rewrite HV1. set_solver.
  - intros x [Hx|Hx]%elem_of_app; [by apply Hnew1|].
    intros Hx0. apply (Hnew2 x Hx). rewrite HV1. set_solver.
Qed.

Lemma grown_subseteq (st0 st : gset Node * list Node) :
  grown st0 st → st0.1 ⊆ st.1.
Proof. intros (new & _ & -> & _). set_solver. Qed.

Lemma visit_grown fuel g node (st st' : gset Node * list Node) :
  visit fuel g node st = Some st' → grown st st' ∧ node ∈ st'.1.
Proof.
  revert node st st'. induction fuel as [|fuel IH]; intros node st st'; simpl;
    [done|].
  case_decide as Hn.
  - intros [= <-]. split; [apply grown_refl|done].
  - destruct (for_each _ _ _) as [st1|] eqn:E; [|done]. intros [= <-].
    apply (for_each_ind _ (λ _ s, grown ({[node]} ∪ st.1, st.2) s)) in E.
    + destruct E as (new & HR & HV & Hnd & Hnew). simpl in *. split.
      * exists (new ++ [node]). simpl. split_and!.
        -- by rewrite HR, app_assoc.
        -- rewrite HV, list_to_set_app_L. set_solver.
        -- apply NoDup_app. split_and!; [done| |apply NoDup_singleton].
           intros x Hx Hx'%list_elem_of_singleton. subst x.
           apply (Hnew _ Hx). set_solver.
        -- intros x [Hx|Hx%list_elem_of_singleton]%elem_of_app; [|by subst x].
           apply Hnew in Hx. set_solver.
      * rewrite HV. set_solver.
    + apply grown_refl.
    + intros _ x s1 s2 _ Hs1 Hs2. apply IH in Hs2 as [Hs2 _].
      by eapply grown_trans.
Qed.

Lemma visit_within fuel g (K : gset Node) node (st st' : gset Node * list Node) :
  (∀ u v, edge g u v → v ∈ K) →
  visit fuel g node st = Some st' →
  node ∈ K → st.1 ⊆ K → st'.1 ⊆ K.
Proof.
  intros HK.
  revert node st st'. induction fuel as [|fuel IH]; intros node st st'; simpl;
    [done|].
  case_decide as Hn; [by intros [= <-]|].
  destruct (for_each _ _ _) as [st1|] eqn:E; [|done]. intros [= <-] Hnode Hst.
  simpl.
  apply (for_each_ind _ (λ _ s, s.1 ⊆ K)) in E; [done|set_solver|].
  intros _ x s1 s2 Hx Hs1 Hs2.
  apply (IH _ _ _ Hs2); [|done]. by eapply HK.
Qed.

Lemma topsort_nodup g ts :
  topsort g = Some ts →
  NoDup ts ∧ (∀ x, x ∈ get_nodes g → x ∈ ts) ∧
  (closed g → ∀ x, x ∈ ts → x ∈ get_nodes g).
Proof.
  unfold topsort. destruct (for_each _ _ _) as [st|] eqn:E; [|done].
  intros [= <-].
  apply (for_each_ind _ (λ pre s,
           grown (∅, []) s ∧ (∀ x, x ∈ pre → x ∈ s.1) ∧
           (closed g → s.1 ⊆ list_to_set (get_nodes g)))) in E.
  - destruct E as ((new & HR & HV & Hnd & _) & Hall & Hin). simpl in *.
    subst new. split_and!.
    + by rewrite reverse_Permutation.
    + intros x Hx%Hall. rewrite elem_of_reverse. set_solver.
    + intros Hcl x Hx%elem_of_reverse. specialize (Hin Hcl). set_solver.
  - split_and!; [apply grown_refl|by intros x ?%elem_of_nil|set_solver].
  - intros pre x s1 s2 Hx (Hg & Hpre & Hin) Hv. split_and!.
    + apply visit_grown in Hv as [Hv _]. by eapply grown_trans.
    + apply visit_grown in Hv as [Hv Hx2]. apply grown_subseteq in Hv.
      set_solver.
    + intros Hcl. eapply visit_within; [|done| |by apply Hin].
      * intros u v Huv. apply elem_of_list_to_set. by eapply Hcl.
      * by apply elem_of_list_to_set.
Qed.

(** ** topsort on a graph without cycle *)

Lemma edge_get_nodes g u v : edge g u v → u ∈ get_nodes g.
Proof.
  unfold edge, successors, get_nodes. intros Huv.
  destruct (decide (u ∈ (adj g).*1)) as [|Hu]; [done|].
  rewrite (adj_get_not_key _ _ Hu) in Huv. by apply elem_of_nil in Huv.
Qed.

Lemma visit_order fuel g (G : gset Node) node (st st' : gset Node * list Node) :
  acyclic g →
  visit fuel g node st = Some st' →
  (∀ x, x ∈ G → rtc (edge g) x node) →
  visited_ok G st → finished_ok g st.2 →
  visited_ok G st' ∧ finished_ok g st'.2.
Proof.
  intros Hac. revert G node st st'.
  induction fuel as [|fuel IH]; intros G node st st'; simpl; [done|].
  case_decide as Hn; [by intros [= <-]|].
  destruct (for_each _ _ _) as [st1|] eqn:E; [|done].
  intros [= <-] HG Hvis Hfin. simpl.
  apply (for_each_ind _ (λ pre s,
           visited_ok ({[node]} ∪ G) s ∧ finished_ok g s.2 ∧
           ∀ x, x ∈ pre → x ∈ s.1)) in E.
  - destruct E as (Hvis1 & Hfin1 & Hall). split.
    + intros x Hx. simpl in *. destruct (Hvis1 x Hx) as [?|?]; set_solver.
    + intros i x y Hi Hxy.
      apply lookup_snoc_Some in Hi as [[Hlt Hi]|[-> <-]].
      * destruct (Hfin1 i x y Hi Hxy) as (j & Hj & Hy).
        exists j. split; [done|]. rewrite lookup_app_l; [done|lia].
      * destruct (Hvis1 y (Hall y Hxy)) as [Hy|Hy].
        -- apply list_elem_of_lookup in Hy as [j Hj].
           exists j. split; [by eapply lookup_lt_Some|].
           rewrite lookup_app_l; [done|by eapply lookup_lt_Some].
        -- exfalso. apply (Hac node). eapply tc_rtc_r; [by apply tc_once|].
           apply elem_of_union in Hy as [Hy%elem_of_singleton|Hy];
             [subst y; apply rtc_refl|by apply HG].
  - split_and!; [|done|by intros x ?%elem_of_nil].
    intros x Hx. simpl in *.
    apply elem_of_union in Hx as [Hx|Hx]; [set_solver|].
    destruct (Hvis x Hx); set_solver.
  - intros pre x s1 s2 Hx (Hvis1 & Hfin1 & Hall) Hv.
    destruct (IH ({[node]} ∪ G) x s1 s2 Hv) as [Hvis2 Hfin2]; [|done..|].
    + intros z [Hz%elem_of_singleton|Hz]%elem_of_union.
      * subst z. by apply rtc_once.
      * eapply rtc_r; [by apply HG|done].
    + apply visit_grown in Hv as [Hv Hx2]. apply grown_subseteq in Hv.
      split_and!; [done..|].
      intros z [Hz|Hz%list_elem_of_singleton]%elem_of_app; [|by subst z].
      apply Hv. by apply Hall.
Qed.

Lemma topsort_order g ts u v :
  acyclic g → topsort g = Some ts → edge g u v →
  ∃ i j, ts !! i = Some u ∧ ts !! j = Some v ∧ i < j.
Proof.
  intros Hac. unfold topsort.
  destruct (for_each _ _ _) as [st|] eqn:E; [|done]. intros [= <-] Huv.
  apply (for_each_ind _ (λ pre s,
           visited_ok ∅ s ∧ finished_ok g s.2 ∧ ∀ x, x ∈ pre → x ∈ s.1)) in E.
  - destruct E as (Hvis & Hfin & Hall).
    destruct (Hvis u) as [Hu|Hu]; [by eapply Hall, edge_get_nodes| |set_solver].
    apply list_elem_of_lookup in Hu as [i Hi].
    destruct (Hfin i u v Hi Huv) as (j & Hj & Hv).
    pose proof (lookup_lt_Some _ _ _ Hi) as Hlen.
    exists (length st.2 - S i), (length st.2 - S j). split_and!; [| |lia].
    + apply reverse_lookup_Some. split; [|lia].
      by replace (length st.2 - S (length st.2 - S i)) with i by lia.
    + apply reverse_lookup_Some. split; [|lia].
      by replace (length st.2 - S (length st.2 - S j)) with j by lia.
  - split_and!; [set_solver| |by intros x ?%elem_of_nil].
    intros i x y Hi. simpl in Hi. by rewrite lookup_nil in Hi.
  - intros pre x s1 s2 Hx (Hvis1 & Hfin1 & Hall) Hv.
    destruct (visit_order _ _ ∅ _ _ _ Hac Hv) as [Hvis2 Hfin2];
      [set_solver|done..|].
    apply visit_grown in Hv as [Hv Hx2]. apply grown_subseteq in Hv.
    split_and!; [done..|].
    intros z [Hz|Hz%list_elem_of_singleton]%elem_of_app; [|by subst z].
    apply Hv. by apply Hall.
Qed.

(** ** dfs *)

Lemma dfs_fuel_total fuel g s (V : gset Node) :
  size (nodes_set g ∖ V) < fuel →
  ∃ r, dfs_fuel fuel g (Some s) (Some V) = Some r ∧ V ⊆ r.2.
Proof.
  revert s V. induction fuel as [|fuel IH]; intros s V Hf; [lia|].
  simpl. case_decide as Hs; [by eauto|].
  destruct (for_each_total
    (λ neighbor (st : list Node * gset Node),
       if decide (neighbor ∈ st.2) then Some st
       else match dfs_fuel fuel g (Some neighbor) (Some st.2) with
            | Some r => Some (st.1 ++ neighbor :: r.1, r.2)
            | None => None
            end)
    (λ st : list Node * gset Node, {[s]} ∪ V ⊆ st.2)
    (adj_get (adj g) s) ([], {[s]} ∪ V)) as (r & Hr & Hsub); [done| |].
  - intros x st1 Hx Hsub. case_decide; [by eauto|].
    apply edge_nodes_set in Hx as [Hs' _].
    destruct (IH x st1.2) as (r & -> & Hr).
    + pose proof (measure_step (nodes_set g) V s Hs' Hs).
      pose proof (measure_mono (nodes_set g) _ _ Hsub). lia.
    + eexists. split; [done|]. simpl. set_solver.
  - exists r. split; [done|]. set_solver.
Qed.

Lemma dfs_fuel_yields fuel g s (V : gset Node) r :
  dfs_fuel fuel g (Some s) (Some V) = Some r →
  V ⊆ r.2 ∧ ∀ x, x ∈ r.1 → (x ∉ {[s]} ∪ V) ∧ tc (edge g) s x.
Proof.
  revert s V r. induction fuel as [|fuel IH]; intros s V r; simpl; [done|].
  case_decide as Hs.
  - intros [= <-]. split; [done|]. by intros x ?%elem_of_nil.
  - intros E.
    apply (for_each_ind _ (λ _ (st : list Node * gset Node),
             {[s]} ∪ V ⊆ st.2 ∧
             ∀ x, x ∈ st.1 → (x ∉ {[s]} ∪ V) ∧ tc (edge g) s x)) in E.
    + destruct E as [Hsub Hout]. split; [set_solver|done].
    + split; [done|]. by intros x ?%elem_of_nil.
    + intros _ x st1 st2 Hx [Hsub Hout]. case_decide as Hx1.
      { by intros [= <-]. }
      destruct (dfs_fuel fuel g (Some x) (Some st1.2)) as [r1|] eqn:E1; [|done].
      intros [= <-]. apply IH in E1 as [Hsub1 Hout1]. simpl.
      split; [set_solver|].
      intros y [Hy|[Hy|Hy]%elem_of_cons]%elem_of_app.
      * by apply Hout.
      * subst y. split; [set_solver|]. by apply tc_once.
      * destruct (Hout1 y Hy) as [Hy1 Hy2]. split; [set_solver|].
        by eapply tc_l.
Qed.

Lemma dfs_fuel_default fuel g start :
  dfs_fuel fuel g start None =
    match default_start g start with
    | Some s => dfs_fuel fuel g (Some s) (Some ∅)
    | None => match fuel with 0 => None | S _ => Some ([], ∅) end
    end.
Proof. destruct fuel, start as [s|]; simpl; try done; by destruct (head _). Qed.

Lemma dfs_yields g start :
  ∃ out, dfs g start = Some out ∧
    match default_start g start with
    | Some s => ∀ x, x ∈ out → x ≠ s ∧ tc (edge g) s x
    | None => out = []
    end.
Proof.
  unfold dfs. rewrite dfs_fuel_default.
  destruct (default_start g start) as [s|]; [|by exists []].
  destruct (dfs_fuel_total (fuel_bound g) g s ∅) as (r & Hr & _);
    [apply measure_bound|].
  rewrite Hr. exists r.1. split; [done|].
  intros x Hx. apply dfs_fuel_yields in Hr as [_ Hr].
  destruct (Hr x Hx). split; [set_solver|done].
Qed.

(** ** bfs *)

Lemma bfs_enqueue_cons x l (st : list Node * gset Node) :
  bfs_enqueue (x :: l) st =
    bfs_enqueue l (if decide (x ∈ st.2) then st
                   else (st.1 ++ [x], {[x]} ∪ st.2)).
Proof. done. Qed.

Lemma bfs_enqueue_spec l (st : list Node * gset Node) :
  st.2 ⊆ (bfs_enqueue l st).2 ∧
  ∀ x, x ∈ (bfs_enqueue l st).1 → x ∈ st.1 ∨ (x ∈ l ∧ x ∉ st.2).
Proof.
  revert st. induction l as [|y l IH]; intros st; [by auto|].
  rewrite bfs_enqueue_cons. case_decide as Hy.
  - destruct (IH st) as [Hsub Hq]. split; [done|].
    intros x [?|[? ?]]%Hq; set_solver.
  - destruct (IH (st.1 ++ [y], {[y]} ∪ st.2)) as [Hsub Hq]. simpl in *.
    split; [set_solver|]. intros x [?|[? ?]]%Hq; set_solver.
Qed.

Lemma bfs_enqueue_measure (U : gset Node) l (st : list Node * gset Node) :
  (∀ x, x ∈ l → x ∈ U) →
  length (bfs_enqueue l st).1 + size (U ∖ (bfs_enqueue l st).2)
    ≤ length st.1 + size (U ∖ st.2).
Proof.
  revert st. induction l as [|y l IH]; intros st Hl; [done|].
  rewrite bfs_enqueue_cons. case_decide as Hy.
  - apply IH. intros x Hx. apply Hl. set_solver.
  - etrans; [apply IH; intros x Hx; apply Hl; set_solver|]. simpl.
    rewrite length_app. simpl.
    pose proof (measure_step U st.2 y (Hl y ltac:(set_solver)) Hy). lia.
Qed.

Lemma bfs_loop_total fuel g queue (V : gset Node) first :
  length queue + size (nodes_set g ∖ V) ≤ fuel →
  ∃ out, bfs_loop fuel g queue V first = Some out.
Proof.
  revert queue V first. induction fuel as [|fuel IH]; intros [|node queue] V first;
    simpl; intros Hf; [by eauto|lia|by eauto|].
  pose proof (bfs_enqueue_measure (nodes_set g) (adj_get (adj g) node)
                (queue, V)) as Hm. simpl in Hm.
  destruct (IH (bfs_enqueue (adj_get (adj g) node) (queue, V)).1
               (bfs_enqueue (adj_get (adj g) node) (queue, V)).2 false)
    as [out ->]; [|by eauto].
  etrans; [apply Hm|lia]. intros x Hx. by apply edge_nodes_set in Hx as [_ ?].
Qed.

Lemma bfs_loop_yields fuel g s queue (V : gset Node) out :
  bfs_loop fuel g queue V false = Some out →
  s ∈ V → (∀ x, x ∈ queue → x ≠ s ∧ rtc (edge g) s x) →
  ∀ x, x ∈ out → x ≠ s ∧ rtc (edge g) s x.
Proof.
  revert queue V out. induction fuel as [|fuel IH]; intros [|node queue] V out;
    simpl; try done; try (intros [= <-] _ _ x ?%elem_of_nil; done).
  destruct (bfs_loop _ _ _ _ _) as [out'|] eqn:E; [|done].
  intros [= <-] Hs Hq x [->|Hx]%elem_of_cons; [apply Hq; set_solver|].
  destruct (bfs_enqueue_spec (adj_get (adj g) node) (queue, V)) as [Hsub Hnew].
  apply (IH _ _ _ E); [set_solver| |done].
  intros y [Hy|[Hy Hy']]%Hnew; simpl in *.
  - apply Hq. set_solver.
  - split; [set_solver|]. eapply rtc_r; [apply (Hq node); set_solver|done].
Qed.

Lemma bfs_yields g start :
  ∃ out, bfs g start = Some out ∧
    match default_start g start with
    | Some s => ∀ x, x ∈ out → x ≠ s ∧ tc (edge g) s x
    | None => out = []
    end.
Proof.
  unfold bfs, default_start.
  destruct (get_nodes g) as [|k ks] eqn:Hk.
  - exists []. split; [done|]. destruct start; [|done]. by intros x ?%elem_of_nil.
  - assert (∃ s, default k start = s ∧
              match start with Some s0 => Some s0 | None => head (k :: ks) end
                = Some s) as (s & -> & ->) by (destruct start; simpl; eauto).
    destruct (bfs_loop_total (fuel_bound g) g [s] {[s]} true) as [out Hout].
    { pose proof (measure_bound g {[s]}). simpl. lia. }
    exists out. split; [done|]. unfold fuel_bound in Hout. simpl in Hout.
    destruct (bfs_loop _ _ _ _ _) as [out'|] eqn:E; [|done].
    injection Hout as <-.
    destruct (bfs_enqueue_spec (adj_get (adj g) s) ([], {[s]})) as [Hsub Hnew].
    intros x Hx.
    destruct (bfs_loop_yields _ _ s _ _ _ E) with (x := x) as [Hne Hp];
      [set_solver| |done|].
    + intros y [Hy|[Hy Hy']]%Hnew; simpl in *; [by apply elem_of_nil in Hy|].
      split; [set_solver|]. by apply rtc_once.
    + split; [done|]. apply rtc_tc in Hp as [?|?]; [congruence|done].
Qed.

(** ** Invariants of every graph built through the interface *)

Lemma closed_empty : closed empty_graph.
Proof.
  intros u v Huv. unfold edge, successors in Huv. simpl in Huv.
  by apply elem_of_nil in Huv.
Qed.

Lemma closed_add_node g node data : closed g → closed (add_node g node data).
Proof.
  intros Hg u v Huv%edge_add_node. apply elem_of_get_nodes_add_node.
  left. by eapply Hg.
Qed.

Lemma closed_add_edge g u v w : closed g → closed (add_edge g u v w).
Proof.
  intros Hg x y [Hxy|[-> ->]]%edge_add_edge; apply get_nodes_add_edge.
  - left. by eapply Hg.
  - auto.
Qed.

Lemma NoDup_get_nodes_add_node g node data :
  NoDup (get_nodes g) → NoDup (get_nodes (add_node g node data)).
Proof.
  intros Hg. rewrite get_nodes_add_node.
  destruct (adj_mem (adj g) node) eqn:E; [done|].
  apply NoDup_app. split_and!; [done| |apply NoDup_singleton].
  intros x Hx Hx'%list_elem_of_singleton. subst x.
  apply adj_mem_keys in Hx. congruence.
Qed.

Lemma NoDup_get_nodes_add_edge g u v w :
  NoDup (get_nodes g) → NoDup (get_nodes (add_edge g u v w)).
Proof.
  intros Hg. unfold add_edge, get_nodes at 1. simpl. rewrite adj_append_keys.
  by apply NoDup_get_nodes_add_node, NoDup_get_nodes_add_node.
Qed.

(** ** predecessors *)

Lemma adj_get_entry (a : list (Node * list Node)) u :
  u ∈ a.*1 → (u, adj_get a u) ∈ a.
Proof.
  induction a as [|[k l] a IH]; csimpl; [by intros ?%elem_of_nil|].
  intros Hu. case_decide as Hk.
  - subst k. left.
  - right. apply IH. apply elem_of_cons in Hu as [?|?]; [congruence|done].
Qed.

Lemma elem_of_predecessors g u v : edge g u v → u ∈ predecessors g v.
Proof.
  intros Huv. unfold predecessors.
  apply (list_elem_of_fmap_2' fst _ (u, adj_get (adj g) u)); [|done].
  apply list_elem_of_filter. split; [done|].
  apply adj_get_entry. by eapply edge_get_nodes.
Qed.

Lemma NoDup_predecessors g v : NoDup (get_nodes g) → NoDup (predecessors g v).
Proof.
  unfold get_nodes, predecessors. intros Hg.
  eapply sublist_NoDup; [done|]. apply fmap_sublist, sublist_filter.
Qed.

Lemma NoDup_occurs_once (l : list Node) x :
  NoDup l → x ∈ l → length (filter (λ y, y = x) l) = 1.
Proof.
  induction 1 as [|y l Hy Hl IH]; [by intros ?%elem_of_nil|].
  rewrite filter_cons. intros [->|Hx]%elem_of_cons.
  - rewrite decide_True by done. simpl. f_equal.
    apply length_zero_iff_nil. clear IH Hl.
    induction l as [|z l IHl]; [done|].
    apply not_elem_of_cons in Hy as [Hz Hy].
    rewrite filter_cons, decide_False by done. auto.
  - rewrite decide_False by (intros ->; done). auto.
Qed.

Lemma dag_reachable_add_edge g u v w :
  dag_reachable g → _has_path g v u = Some false →
  dag_reachable (add_edge g u v w).
Proof.
  intros Hg Hp. eapply dag_add_edge_ok; [done|].
  unfold dag_add_edge. by rewrite Hp.
Qed.

(** ** The recursion limit *)

Lemma visit_S fuel g node (st : gset Node * list Node) :
  visit (S fuel) g node st =
    if decide (node ∈ st.1) then Some st
    else match for_each (visit fuel g) (adj_get (adj g) node)
                 ({[node]} ∪ st.1, st.2) with
         | Some st' => Some (st'.1, st'.2 ++ [node])
         | None => None
         end.
Proof. done. Qed.

Lemma has_path_fuel_S fuel g s e (V : gset Node) :
  _has_path_fuel (S fuel) g s e V =
    if decide (s = e) then Some (true, V)
    else for_until
           (λ neighbor (visited : gset Node),
              if decide (neighbor ∈ visited) then Some (false, visited)
              else _has_path_fuel fuel g neighbor e visited)
           (adj_get (adj g) s) ({[s]} ∪ V).
Proof. done. Qed.

Lemma dfs_fuel_S fuel g s (V : gset Node) :
  dfs_fuel (S fuel) g (Some s) (Some V) =
    if decide (s ∈ V) then Some ([], V)
    else for_each
           (λ neighbor (st : list Node * gset Node),
              if decide (neighbor ∈ st.2) then Some st
              else match dfs_fuel fuel g (Some neighbor) (Some st.2) with
                   | Some r => Some (st.1 ++ neighbor :: r.1, r.2)
                   | None => None
                   end)
           (adj_get (adj g) s) ([], {[s]} ∪ V).
Proof. done. Qed.

Lemma for_each_mono {A S : Type} (body body' : A → S → option S) l s r :
  (∀ x s1 r1, body x s1 = Some r1 → body' x s1 = Some r1) →
  for_each body l s = Some r → for_each body' l s = Some r.
Proof.
  intros Hb. revert s. induction l as [|x l IH]; intros s; simpl; [done|].
  destruct (body x s) as [s1|] eqn:E; [|done].
  rewrite (Hb _ _ _ E). apply IH.
Qed.

Lemma for_until_mono {A S : Type} (body body' : A → S → option (bool * S))
    l s r :
  (∀ x s1 r1, body x s1 = Some r1 → body' x s1 = Some r1) →
  for_until body l s = Some r → for_until body' l s = Some r.
Proof.
  intros Hb. revert s. induction l as [|x l IH]; intros s; simpl; [done|].
  destruct (body x s) as [[[] s1]|] eqn:E; [| |done]; rewrite (Hb _ _ _ E).
  - done.
  - apply IH.
Qed.

(** A run that ends within some number of frames ends the same way with
    more. *)
Lemma visit_mono fuel fuel' g node (st st' : gset Node * list Node) :
  fuel ≤ fuel' → visit fuel g node st = Some st' →
  visit fuel' g node st = Some st'.
Proof.
  intros Hle. induction Hle as [|fuel' _ IH]; [done|]. intros Hv.
  specialize (IH Hv). clear Hv fuel. revert node st st' IH.
  induction fuel' as [|f IHf]; intros node st st'; [done|].
  rewrite !visit_S. case_decide; [done|].
  destruct (for_each (visit f g) _ _) as [st1|] eqn:E; [|done].
  by rewrite (for_each_mono _ (visit (S f) g) _ _ _ (IHf) E).
Qed.

Lemma has_path_fuel_mono fuel fuel' g s e (V : gset Node) r :
  fuel ≤ fuel' → _has_path_fuel fuel g s e V = Some r →
  _has_path_fuel fuel' g s e V = Some r.
Proof.
  intros Hle. induction Hle as [|fuel' _ IH]; [done|]. intros Hv.
  specialize (IH Hv). clear Hv fuel. revert s V r IH.
  induction fuel' as [|f IHf]; intros s V r; [done|].
  rewrite !has_path_fuel_S. case_decide; [done|].
  apply for_until_mono. intros x V1 r1. case_decide; [done|]. apply IHf.
Qed.

Lemma dfs_fuel_mono fuel fuel' g s (V : gset Node) r :
  fuel ≤ fuel' → dfs_fuel fuel g (Some s) (Some V) = Some r →
  dfs_fuel fuel' g (Some s) (Some V) = Some r.
Proof.
  intros Hle. induction Hle as [|fuel' _ IH]; [done|]. intros Hv.
  specialize (IH Hv). clear Hv fuel. revert s V r IH.
  induction fuel' as [|f IHf]; intros s V r; [done|].
  rewrite !dfs_fuel_S. case_decide; [done|].
  apply for_each_mono. intros x st1 r1. case_decide; [done|].
  destruct (dfs_fuel f g (Some x) (Some st1.2)) as [r2|] eqn:E; [|done].
  by rewrite (IHf _ _ _ E).
Qed.

Lemma node_count_bound g (V : gset Node) limit :
  node_count g < limit → size (nodes_set g ∖ V) < limit.
Proof.
  unfold node_count. intros Hn.
  pose proof (subseteq_size (nodes_set g ∖ V) (nodes_set g) ltac:(set_solver)).
  lia.
Qed.

(** *** topsort within the limit *)

Lemma topsort_limit_total limit g :
  node_count g < limit → ∃ ts, topsort_limit limit g = Some ts.
Proof.
  intros Hn. unfold topsort_limit.
  destruct (for_each_total (visit limit g)
              (λ _ : gset Node * list Node, True) (get_nodes g) (∅, []))
    as (st' & -> & _); [done| |by eauto].
  intros x st1 _ _.
  destruct (visit_total limit g x st1) as (st2 & -> & _);
    [by apply node_count_bound|by eauto].
Qed.

Lemma topsort_limit_mono limit limit' g ts :
  limit ≤ limit' → topsort_limit limit g = Some ts →
  topsort_limit limit' g = Some ts.
Proof.
  intros Hle. unfold topsort_limit.
  destruct (for_each (visit limit g) _ _) as [st|] eqn:E; [|done].
  rewrite (for_each_mono _ (visit limit' g) _ _ _
             (λ x s1 r1, visit_mono limit limit' g x s1 r1 Hle) E). done.
Qed.

(** Whatever topsort returns within a limit is what the run that is never
    cut short returns. *)
Lemma topsort_limit_agrees limit g ts :
  topsort_limit limit g = Some ts → topsort g = Some ts.
Proof.
  intros Hl. destruct (topsort_total g) as [ts' Hts'].
  assert (topsort_limit (limit `max` fuel_bound g) g = Some ts) as H1
    by (apply (topsort_limit_mono limit); [lia|done]).
  assert (topsort_limit (limit `max` fuel_bound g) g = Some ts') as H2
    by (apply (topsort_limit_mono (fuel_bound g)); [lia|done]).
  rewrite H1 in H2. by injection H2 as ->.
Qed.

(** *** _has_path within the limit *)

Lemma has_path_limit_spec limit g s e :
  node_count g < limit →
  ∃ b, _has_path_limit limit g s e = Some b ∧ (b = true ↔ rtc (edge g) s e).
Proof.
  intros Hn. unfold _has_path_limit.
  destruct (has_path_fuel_total limit g s e ∅) as (b & V' & Hb & _);
    [by apply node_count_bound|set_solver|].
  rewrite Hb. exists b. split; [done|]. destruct b.
  - split; [|done]. intros _. by eapply has_path_fuel_true.
  - split; [done|]. intros Hp. exfalso.
    apply has_path_fuel_false in Hb as (_ & Hs & He & Hcl).
    assert (e ∈ V') as Hin; [|set_solver].
    clear He. induction Hp as [|x y z Hxy _ IHp]; [done|].
    apply IHp. eapply Hcl; [done|set_solver|done].
Qed.


(** *** A chain deeper than the limit *)

Lemma head_get_nodes_add_node g node data :
  head (get_nodes (add_node g node data))
    = Some (default node (head (get_nodes g))).
Proof.
  rewrite get_nodes_add_node. destruct (adj_mem (adj g) node) eqn:E.
  - apply adj_mem_keys in E. fold (get_nodes g) in E.
    destruct (get_nodes g); [by apply elem_of_nil in E|done].
  - by destruct (get_nodes g).
Qed.

Lemma head_get_nodes_add_edge g u v w :
  head (get_nodes (add_edge g u v w)) = Some (default u (head (get_nodes g))).
Proof.
  unfold add_edge, get_nodes at 1. simpl. rewrite adj_append_keys.
  fold (get_nodes (add_node (add_node g u None) v None)).
  by rewrite !head_get_nodes_add_node.
Qed.

Section Chain.

Context (node_of : nat → Node) `{!Inj (=) (=) node_of}.

Lemma built_chain n : built (chain node_of n).
Proof. induction n; simpl; by constructor. Qed.

Lemma successors_chain n i :
  successors (chain node_of n) (node_of i)
    = if decide (i < n) then [node_of (S i)] else [].
Proof.
  induction n as [|n IH]; [by rewrite decide_False by lia|].
  cbn [chain]. rewrite successors_add_edge.
  destruct (decide (node_of i = node_of n)) as [Hi%(inj node_of)|Hi].
  - subst i. rewrite IH, decide_False, decide_True by lia. done.
  - rewrite IH. assert (i ≠ n) by congruence.
    destruct (decide (i < n)).
    + by rewrite decide_True by lia.
    + by rewrite decide_False by lia.
Qed.

Lemma head_get_nodes_chain n :
  head (get_nodes (chain node_of (S n))) = Some (node_of 0).
Proof.
  induction n as [|n IH]; cbn [chain] in *;
    rewrite head_get_nodes_add_edge; [done|].
  by rewrite IH.
Qed.


Lemma acyclic_chain n : acyclic (chain node_of n).
Proof.
  induction n as [|n IH]; [apply acyclic_empty|].
  cbn [chain]. apply acyclic_add_edge; [done|].
  intros [Heq%(inj node_of)|(y & Hy & _)]%rtc_inv; [lia|].
  unfold edge in Hy. rewrite successors_chain, decide_False in Hy by lia.
  by apply elem_of_nil in Hy.
Qed.

(** With [i] nodes of the chain behind and at most [n - i] frames left the
    search gives up before the end of the chain. *)
Lemma visit_chain_overflow n fuel i (V : gset Node) (R : list Node) :
  i + fuel ≤ n → (∀ x, x ∈ V → ∃ j, j < i ∧ x = node_of j) →
  visit fuel (chain node_of n) (node_of i) (V, R) = None.
Proof.
  revert i V R. induction fuel as [|fuel IH]; intros i V R Hi HV; [done|].
  rewrite visit_S. cbn [fst snd].
  rewrite decide_False.
  - change (adj_get (adj (chain node_of n)) (node_of i))
      with (successors (chain node_of n) (node_of i)).
    rewrite successors_chain, decide_True by lia. cbn [for_each].
    rewrite IH; [done|lia|].
    intros x [Hx%elem_of_singleton|Hx]%elem_of_union.
    + exists i. split; [lia|done].
    + destruct (HV x Hx) as (j & Hj & ->). exists j. split; [lia|done].
  - intros (j & Hj & Heq%(inj node_of))%HV. lia.
Qed.


(** On the chain of [n] edges, [n] at least 1, topsort with at most [n]
    frames raises RecursionError. *)
Lemma topsort_chain_overflow n limit :
  limit ≤ S n → topsort_limit limit (chain node_of (S n)) = None.
Proof.
  intros Hl. unfold topsort_limit.
  pose proof (head_get_nodes_chain n) as Hh.
  destruct (get_nodes (chain node_of (S n))) as [|k ks]; [done|].
  injection Hh as ->. cbn [for_each].
  rewrite (visit_chain_overflow (S n) limit 0); [done|lia|set_solver].
Qed.


End Chain.

(** * The claims *)

(** C1: a graph obtained from the empty DAG by calls of add_node and by
    calls of add_edge that return has no directed cycle: no node reaches
    itself through one or more edges. *)
Theorem dag_no_cycle g : dag_reachable g → acyclic g.
Proof.
  induction 1 as [|g node data _ IH|g u v w g' _ IH Hok].
  - apply acyclic_empty.
  - by apply acyclic_add_node.
  - destruct (dag_add_edge_cases g u v w) as [[_ Hr]|[Hnp Hr]];
      rewrite Hr in Hok; [done|].
    injection Hok as <-. by apply acyclic_add_edge.
Qed.



(** C4: as the code has it, on a graph without directed cycle, with
    more frames for visit than the graph mentions identifiers, topsort
    returns a sequence, without repetition, in which the index of u is
    smaller than the index of v for every edge (u, v). *)
Theorem topsort_limit_topological limit g :
  acyclic g → node_count g < limit →
  ∃ ts, topsort_limit limit g = Some ts ∧ NoDup ts ∧
    ∀ u v, edge g u v → ∃ i j, ts !! i = Some u ∧ ts !! j = Some v ∧ i < j.
Proof.
  intros Hac Hn. destruct (topsort_limit_total limit g Hn) as [ts Hts].
  exists ts. pose proof (topsort_limit_agrees limit g ts Hts) as Hts'.
  split_and!; [done|by apply (topsort_nodup g ts)|].
  intros u v Huv. by eapply topsort_order.
Qed.

(** C5: add_node on a known node returns the graph unchanged, so a second
    add_node(x) changes nothing, whatever the payloads, and the payload
    stored first stays. *)
Theorem add_node_known_noop g node data data' :
  (node ∈ get_nodes g → add_node g node data = g) ∧
  (node ∈ get_nodes g →
     get_node_value (add_node g node data) node = get_node_value g node) ∧
  add_node (add_node g node data) node data' = add_node g node data.
Proof.
  assert (node ∈ get_nodes g → add_node g node data = g) as Hnoop.
  { intros Hn%adj_mem_keys. unfold add_node. by rewrite Hn. }
  split_and!; [done| |].
  - intros Hn. by rewrite Hnoop.
  - unfold add_node at 1. by rewrite adj_mem_add_node.
Qed.

(** C6: as the code has it, on every graph, with or without cycle, that
    mentions fewer identifiers than visit has frames, topsort returns a
    sequence that contains every node of the graph exactly once (and
    nothing else when every successor is a node, as in every graph built
    by add_node and add_edge). *)
Theorem topsort_limit_lists_every_node limit g :
  node_count g < limit →
  ∃ ts, topsort_limit limit g = Some ts ∧ NoDup ts ∧
    (∀ x, x ∈ get_nodes g → x ∈ ts) ∧
    (closed g → ∀ x, x ∈ ts → x ∈ get_nodes g).
Proof.
  intros Hn. destruct (topsort_limit_total limit g Hn) as [ts Hts].
  exists ts. split; [done|].
  by apply topsort_nodup, (topsort_limit_agrees limit).
Qed.

(** C7: dfs and bfs return, and every node they yield differs from the
    start node (the one given, else the first node) and is reachable from
    it; with no start node they yield nothing. *)
Theorem traversals_exclude_start g start :
  ∃ d b, dfs g start = Some d ∧ bfs g start = Some b ∧
    match default_start g start with
    | Some s => ∀ x, x ∈ d ∨ x ∈ b → x ≠ s ∧ tc (edge g) s x
    | None => d = [] ∧ b = []
    end.
Proof.
  destruct (dfs_yields g start) as (d & Hd & Hds).
  destruct (bfs_yields g start) as (b & Hb & Hbs).
  exists d, b. split_and!; [done..|].
  destruct (default_start g start) as [s|]; [|done].
  intros x [Hx|Hx]; auto.
Qed.

(** C9: a second add_edge(u, v) appends a second v to the successors of
    u and replaces the weight of (u, v) by the latest one, while u occurs
    once among the predecessors of v. *)
Theorem add_edge_twice g u v w1 w2 :
  NoDup (get_nodes g) →
  successors (add_edge g u v w1) u = successors g u ++ [v] ∧
  successors (add_edge (add_edge g u v w1) u v w2) u
    = (successors g u ++ [v]) ++ [v] ∧
  get_edge_weight (add_edge (add_edge g u v w1) u v w2) u v = w2 ∧
  length (filter (λ x, x = u)
            (predecessors (add_edge (add_edge g u v w1) u v w2) v)) = 1.
Proof.
  intros Hg. split_and!.
  - by rewrite successors_add_edge, decide_True.
  - by rewrite !successors_add_edge, !decide_True.
  - unfold get_edge_weight, add_edge at 1. simpl. by rewrite lookup_insert_eq.
  - apply NoDup_occurs_once.
    + by apply NoDup_predecessors, NoDup_get_nodes_add_edge,
        NoDup_get_nodes_add_edge.
    + apply elem_of_predecessors, edge_add_edge. auto.
Qed.

(** C10: from a start that is not a node of the graph, dfs and bfs
    return and yield nothing. *)
Theorem traversal_unknown_start g s :
  s ∉ get_nodes g → dfs g (Some s) = Some [] ∧ bfs g (Some s) = Some [].
Proof.
  intros Hs. pose proof (adj_get_not_key (adj g) s Hs) as Hadj. split.
  - unfold dfs, fuel_bound. simpl. rewrite decide_False by set_solver.
    by rewrite Hadj.
  - unfold bfs, fuel_bound. destruct (get_nodes g); [done|]. simpl.
    rewrite Hadj. simpl. by destruct (length (all_nodes g)).
Qed.

(** * Further properties *)

(** ** What every graph built through the interface keeps *)

Lemma built_NoDup g : built g → NoDup (get_nodes g).
Proof.
  induction 1; [constructor|by apply NoDup_get_nodes_add_node|
                by apply NoDup_get_nodes_add_edge].
Qed.

Lemma built_closed g : built g → closed g.
Proof.
  induction 1; [apply closed_empty|by apply closed_add_node|
                by apply closed_add_edge].
Qed.

Lemma node_data_add_node g node data n :
  (∀ m, is_Some (node_data g !! m) ↔ m ∈ get_nodes g) →
  is_Some (node_data (add_node g node data) !! n)
    ↔ n ∈ get_nodes (add_node g node data).
Proof.
  intros Hg. rewrite elem_of_get_nodes_add_node. unfold add_node.
  destruct (adj_mem (adj g) node) eqn:E; simpl.
  - apply adj_mem_keys in E. rewrite Hg. split; [auto|].
    intros [?|Hn]; [done|by subst n].
  - rewrite lookup_insert_is_Some, Hg.
    destruct (decide (node = n)); naive_solver.
Qed.

Lemma built_node_data g n :
  built g → is_Some (node_data g !! n) ↔ n ∈ get_nodes g.
Proof.
  intros Hg. revert n.
  induction Hg as [|g node data _ IH|g u v w _ IH]; intros n.
  - simpl. rewrite lookup_empty. split; [by intros [? ?]|by intros ?%elem_of_nil].
  - by apply node_data_add_node.
  - unfold add_edge, get_nodes. simpl. rewrite adj_append_keys.
    apply node_data_add_node. intros m. by apply node_data_add_node.
Qed.

Lemma built_edge_weights g u v :
  built g → is_Some (edge_weights g !! (u, v)) → edge g u v.
Proof.
  intros Hg. revert u v.
  induction Hg as [|g node data _ IH|g a b w _ IH]; intros u v.
  - simpl. rewrite lookup_empty. by intros [? ?].
  - intros Hw. apply edge_add_node, IH.
    unfold add_node in Hw. by destruct (adj_mem (adj g) node).
  - intros Hw. apply edge_add_edge.
    destruct (decide ((a, b) = (u, v))) as [Heq|Hne];
      [injection Heq as <- <-; auto|].
    left. apply IH. unfold add_edge in Hw. simpl in Hw.
    rewrite lookup_insert_ne in Hw by done.
    unfold add_node in Hw.
    destruct (adj_mem (adj g) a); simpl in Hw;
      by destruct (adj_mem _ b).
Qed.

Lemma get_node_value_unknown g n :
  built g → n ∉ get_nodes g → get_node_value g n = None.
Proof.
  intros Hg Hn. unfold get_node_value.
  destruct (node_data g !! n) as [d|] eqn:E; [|done].
  destruct Hn. apply built_node_data; [done|]. by rewrite E.
Qed.

Lemma get_node_value_add_node g node data m :
  get_node_value (add_node g node data) m =
    if decide (m = node ∧ node ∉ get_nodes g) then data
    else get_node_value g m.
Proof.
  unfold get_node_value, add_node.
  destruct (adj_mem (adj g) node) eqn:E; simpl.
  - apply adj_mem_keys in E. by rewrite decide_False by naive_solver.
  - assert (node ∉ get_nodes g) as Hn.
    { intros Hn%adj_mem_keys. congruence. }
    destruct (decide (m = node)) as [->|Hm].
    + by rewrite lookup_insert_eq, decide_True.
    + by rewrite lookup_insert_ne, decide_False by naive_solver.
Qed.

Lemma edge_weights_add_node g node data :
  edge_weights (add_node g node data) = edge_weights g.
Proof. unfold add_node. by destruct (adj_mem (adj g) node). Qed.

Lemma adj_mem_decide g node :
  adj_mem (adj g) node = bool_decide (node ∈ get_nodes g).
Proof.
  destruct (adj_mem (adj g) node) eqn:E; symmetry.
  - by apply bool_decide_eq_true, adj_mem_keys.
  - apply bool_decide_eq_false. intros Hn%adj_mem_keys. congruence.
Qed.

Lemma adj_get_unique (a : list (Node * list Node)) k l :
  NoDup a.*1 → (k, l) ∈ a → adj_get a k = l.
Proof.
  induction a as [|[k' l'] a IH]; csimpl; [by intros _ ?%elem_of_nil|].
  intros [Hk' Ha]%NoDup_cons [Heq|Hin]%elem_of_cons.
  - injection Heq as -> ->. by rewrite decide_True.
  - rewrite decide_False; [by apply IH|].
    intros ->. apply Hk'. by apply (list_elem_of_fmap_2' fst _ (k, l)).
Qed.

Lemma predecessors_edge g u v :
  NoDup (get_nodes g) → u ∈ predecessors g v → edge g u v.
Proof.
  unfold predecessors, edge, successors, get_nodes.
  intros Hg ([k l] & -> & [Hv Hin]%list_elem_of_filter)%list_elem_of_fmap_1.
  simpl in *. by rewrite (adj_get_unique _ _ _ Hg Hin).
Qed.

Lemma get_edge_weight_stored g u v :
  is_Some (get_edge_weight g u v) → is_Some (edge_weights g !! (u, v)).
Proof.
  unfold get_edge_weight. intros [w Hw].
  destruct (edge_weights g !! (u, v)); [by eexists|done].
Qed.

Lemma elem_of_all_nodes g x :
  x ∈ all_nodes g → ∃ k l, (k, l) ∈ adj g ∧ (x = k ∨ x ∈ l).
Proof.
  unfold all_nodes. induction (adj g) as [|[k l] a IH]; simpl.
  - by intros ?%elem_of_nil.
  - rewrite elem_of_cons, elem_of_app. intros [->|[Hx|Hx]].
    + exists k, l. split; [left|auto].
    + exists k, l. split; [left|auto].
    + destruct (IH Hx) as (k' & l' & Hin & Hx'). exists k', l'.
      split; [by right|done].
Qed.

Lemma get_nodes_nodes_set g x : x ∈ get_nodes g → x ∈ nodes_set g.
Proof.
  unfold get_nodes, nodes_set, all_nodes.
  induction (adj g) as [|[k l] a IH]; csimpl; [by intros ?%elem_of_nil|].
  rewrite elem_of_cons. set_solver.
Qed.

Lemma node_count_built g : built g → node_count g = length (get_nodes g).
Proof.
  intros Hg. unfold node_count.
  assert (nodes_set g = list_to_set (get_nodes g)) as ->.
  { apply set_eq. intros x. rewrite elem_of_list_to_set. split.
    - unfold nodes_set. intros Hx%elem_of_list_to_set.
      apply elem_of_all_nodes in Hx as (k & l & Hin & Hx).
      assert (k ∈ get_nodes g) as Hk
        by (by apply (list_elem_of_fmap_2' fst _ (k, l))).
      destruct Hx as [->|Hx]; [done|].
      apply (built_closed g Hg k x). unfold edge, successors.
      by rewrite (adj_get_unique _ _ _ (built_NoDup g Hg) Hin).
    - apply get_nodes_nodes_set. }
  apply size_list_to_set. by apply built_NoDup.
Qed.

(** X1: in every graph built by add_node and add_edge, get_nodes lists
    each identifier once, and both ends of every edge are nodes. *)
Theorem built_nodes_once g :
  built g →
  NoDup (get_nodes g) ∧
  ∀ u v, v ∈ successors g u → u ∈ get_nodes g ∧ v ∈ get_nodes g.
Proof.
  intros Hg. split; [by apply built_NoDup|].
  intros u v Huv. split; [by eapply edge_get_nodes|by eapply built_closed].
Qed.

(** X2: add_node and add_edge keep the nodes already listed in place and
    append the new ones: for add_edge first u, then v. *)
Theorem get_nodes_insertion_order g u v w node data :
  get_nodes (add_node g node data)
    = get_nodes g ++ (if decide (node ∈ get_nodes g) then [] else [node]) ∧
  get_nodes (add_edge g u v w)
    = get_nodes g ++ (if decide (u ∈ get_nodes g) then [] else [u])
                  ++ (if decide (v ∈ get_nodes g ∨ v = u) then [] else [v]).
Proof.
  assert (∀ g' n d, get_nodes (add_node g' n d)
            = get_nodes g' ++ (if decide (n ∈ get_nodes g') then [] else [n]))
    as Hadd.
  { intros g' n d. rewrite get_nodes_add_node, adj_mem_decide.
    case_bool_decide.
    - by rewrite decide_True, app_nil_r.
    - by rewrite decide_False. }
  split; [apply Hadd|].
  unfold add_edge, get_nodes at 1. simpl. rewrite adj_append_keys.
  fold (get_nodes (add_node (add_node g u None) v None)).
  rewrite Hadd, Hadd, <- app_assoc. do 2 f_equal.
  destruct (decide (u ∈ get_nodes g)) as [Hu|Hu]; rewrite ?app_nil_r.
  - destruct (decide (v ∈ get_nodes g)) as [Hv|Hv].
    + by rewrite decide_True by auto.
    + destruct (decide (v = u)) as [->|Hvu]; [done|].
      by rewrite decide_False by naive_solver.
  - destruct (decide (v ∈ get_nodes g ++ [u])) as [Hv|Hv].
    + rewrite decide_True; [done|]. set_solver.
    + rewrite decide_False; [done|]. set_solver.
Qed.

(** X3: add_node stores the payload of a new node, which get_node_value
    then returns, and leaves the payload of every other node as it was. *)
Theorem get_node_value_add_node_new g node data :
  (node ∉ get_nodes g → get_node_value (add_node g node data) node = data) ∧
  (∀ m, m ≠ node →
     get_node_value (add_node g node data) m = get_node_value g m).
Proof.
  split.
  - intros Hn. by rewrite get_node_value_add_node, decide_True.
  - intros m Hm. by rewrite get_node_value_add_node, decide_False by naive_solver.
Qed.

(** X4: add_edge changes no payload: a node it creates has the payload
    None, which is what get_node_value gave for it before. *)
Theorem get_node_value_add_edge g u v w m :
  built g → get_node_value (add_edge g u v w) m = get_node_value g m.
Proof.
  intros Hg.
  change (get_node_value (add_edge g u v w) m)
    with (get_node_value (add_node (add_node g u None) v None) m).
  rewrite !get_node_value_add_node.
  destruct (decide (m = v ∧ _)) as [[-> Hv]|_].
  - symmetry. apply get_node_value_unknown; [done|].
    intros Hv'. apply Hv, elem_of_get_nodes_add_node. auto.
  - destruct (decide (m = u ∧ _)) as [[-> Hu]|_]; [|done].
    symmetry. by apply get_node_value_unknown.
Qed.

(** X5: add_edge stores the weight under the ordered pair (u, v), where
    get_edge_weight finds it; the weight of every other pair, the reversed
    pair included, is unchanged, and add_node changes no weight. *)
Theorem get_edge_weight_add_edge g u v w x y node data :
  get_edge_weight (add_edge g u v w) x y
    = (if decide ((x, y) = (u, v)) then w else get_edge_weight g x y) ∧
  get_edge_weight (add_node g node data) x y = get_edge_weight g x y.
Proof.
  unfold get_edge_weight. split.
  - unfold add_edge. simpl. rewrite !edge_weights_add_node.
    case_decide as Hxy.
    + rewrite Hxy. by rewrite lookup_insert_eq.
    + by rewrite lookup_insert_ne.
  - by rewrite edge_weights_add_node.
Qed.

(** X6: a weight is stored only for a pair that was inserted as an edge:
    where get_edge_weight returns a value, v is a successor of u. *)
Theorem get_edge_weight_edge g u v :
  built g → is_Some (get_edge_weight g u v) → v ∈ successors g u.
Proof.
  intros Hg Hw. by apply (built_edge_weights g u v Hg), get_edge_weight_stored.
Qed.

(** X7: predecessors is the converse of successors: u is listed among the
    predecessors of v exactly when v is a successor of u; the list has no
    repetition and follows the insertion order of the nodes. *)
Theorem predecessors_successors g u v :
  built g →
  (u ∈ predecessors g v ↔ v ∈ successors g u) ∧
  NoDup (predecessors g v) ∧
  predecessors g v `sublist_of` get_nodes g.
Proof.
  intros Hg. pose proof (built_NoDup g Hg) as Hnd. split_and!.
  - split; [by apply predecessors_edge|apply elem_of_predecessors].
  - by apply NoDup_predecessors.
  - unfold predecessors, get_nodes. apply fmap_sublist, sublist_filter.
Qed.

(** X8: the queries never fail on an identifier that is not a node: it
    has no payload, no successor, no predecessor and no weight on any
    pair it is part of. *)
Theorem unknown_node_lookups g n :
  built g → n ∉ get_nodes g →
  get_node_value g n = None ∧ successors g n = [] ∧ predecessors g n = [] ∧
  ∀ x, get_edge_weight g n x = None ∧ get_edge_weight g x n = None.
Proof.
  intros Hg Hn. split_and!.
  - by apply get_node_value_unknown.
  - by apply adj_get_not_key.
  - apply elem_of_nil_inv. intros u Hu.
    apply predecessors_edge in Hu; [|by apply built_NoDup].
    apply Hn. by eapply built_closed.
  - intros x. split.
    + destruct (get_edge_weight g n x) as [w|] eqn:E; [|done].
      destruct Hn. apply (edge_get_nodes g n x), built_edge_weights; [done|].
      apply get_edge_weight_stored. by rewrite E.
    + destruct (get_edge_weight g x n) as [w|] eqn:E; [|done].
      destruct Hn. apply (built_closed g Hg x n), built_edge_weights; [done|].
      apply get_edge_weight_stored. by rewrite E.
Qed.

(** X9: add_edge removes nothing: every node and every edge of the graph
    is still there, u and v are nodes, v is a successor of u and u a
    predecessor of v. *)
Theorem add_edge_extends g u v w :
  (∀ x, x ∈ get_nodes g → x ∈ get_nodes (add_edge g u v w)) ∧
  (∀ x y, y ∈ successors g x → y ∈ successors (add_edge g u v w) x) ∧
  u ∈ get_nodes (add_edge g u v w) ∧ v ∈ get_nodes (add_edge g u v w) ∧
  v ∈ successors (add_edge g u v w) u ∧
  u ∈ predecessors (add_edge g u v w) v.
Proof.
  split_and!.
  - intros x Hx. apply get_nodes_add_edge. auto.
  - intros x y Hxy. apply (edge_add_edge g u v w x y). auto.
  - apply get_nodes_add_edge. auto.
  - apply get_nodes_add_edge. auto.
  - apply (edge_add_edge g u v w u v). auto.
  - apply elem_of_predecessors, edge_add_edge. auto.
Qed.

(** ** The traversals reach every node *)

(** A set that holds [s] and is closed under the edges holds every node
    reachable from [s]. *)
Lemma closed_set_reachable g (S : gset Node) s x :
  s ∈ S → (∀ a b, a ∈ S → edge g a b → b ∈ S) → rtc (edge g) s x → x ∈ S.
Proof. intros Hs Hcl Hp. induction Hp; eauto. Qed.

Lemma dfs_fuel_covers fuel g s (V : gset Node) r :
  dfs_fuel fuel g (Some s) (Some V) = Some r → s ∉ V →
  r.2 = {[s]} ∪ V ∪ list_to_set r.1 ∧ NoDup r.1 ∧
  ∀ x y, x ∈ r.2 → x ∉ V → edge g x y → y ∈ r.2.
Proof.
  revert s V r. induction fuel as [|fuel IH]; intros s V r; simpl; [done|].
  case_decide as Hs; [done|]. intros E _.
  apply (for_each_ind _ (λ pre (st : list Node * gset Node),
           st.2 = {[s]} ∪ V ∪ list_to_set st.1 ∧ NoDup st.1 ∧
           (∀ x, x ∈ pre → x ∈ st.2) ∧
           ∀ x y, x ∈ st.2 → x ∉ {[s]} ∪ V → edge g x y → y ∈ st.2)) in E.
  - destruct E as (HV & Hnd & Hall & Hcl). split_and!; [done..|].
    intros x y Hx HxV Hxy. destruct (decide (x = s)) as [->|Hxs].
    + by apply Hall.
    + apply (Hcl x y); [done|set_solver|done].
  - simpl. split_and!; [set_solver|constructor|by intros x ?%elem_of_nil|].
    set_solver.
  - intros pre x st1 st2 Hx (HV & Hnd & Hall & Hcl). case_decide as Hx1.
    { intros [= <-]. split_and!; [done..| |done].
      intros z [Hz|Hz%list_elem_of_singleton]%elem_of_app; [auto|by subst z]. }
    destruct (dfs_fuel fuel g (Some x) (Some st1.2)) as [r1|] eqn:E1; [|done].
    intros [= <-]. simpl.
    pose proof (dfs_fuel_yields _ _ _ _ _ E1) as [Hsub1 Hout1].
    apply IH in E1 as (HV1 & Hnd1 & Hcl1); [|done]. split_and!.
    + rewrite HV1, HV, list_to_set_app_L, list_to_set_cons. set_solver.
    + apply NoDup_app. split_and!; [done| |].
      * intros z Hz Hz'. assert (z ∈ st1.2) as Hz1 by (rewrite HV; set_solver).
        apply elem_of_cons in Hz' as [->|Hz']; [done|].
        apply Hout1 in Hz' as [Hz' _]. set_solver.
      * constructor; [|done]. intros Hx'%Hout1. set_solver.
    + intros z [Hz|Hz%list_elem_of_singleton]%elem_of_app.
      * apply Hsub1. by apply Hall.
      * subst z. rewrite HV1. set_solver.
    + intros a b Ha HaV Hab. destruct (decide (a ∈ st1.2)) as [Ha1|Ha1].
      * apply Hsub1. by eapply Hcl.
      * by eapply Hcl1.
Qed.

(** What dfs yields is exactly the nodes other than the start that the
    start reaches, each once. *)
Lemma dfs_exact g start :
  ∃ out, dfs g start = Some out ∧ NoDup out ∧
    match default_start g start with
    | Some s => ∀ x, x ∈ out ↔ x ≠ s ∧ tc (edge g) s x
    | None => out = []
    end.
Proof.
  destruct (dfs_yields g start) as (out & Hout & Hsound). exists out.
  split; [done|]. unfold dfs in Hout. rewrite dfs_fuel_default in Hout.
  destruct (default_start g start) as [s|]; [|by subst out; split; [constructor|]].
  destruct (dfs_fuel _ g (Some s) (Some ∅)) as [r|] eqn:E; [|done].
  injection Hout as <-.
  apply dfs_fuel_covers in E as (HV & Hnd & Hcl); [|set_solver].
  split; [done|]. intros x. split; [apply Hsound|]. intros [Hxs Hp].
  assert (x ∈ r.2) as Hx.
  { apply (closed_set_reachable g r.2 s); [rewrite HV; set_solver| |by apply tc_rtc].
    intros a b Ha Hab. apply (Hcl a b); [done|set_solver|done]. }
  rewrite HV in Hx. set_solver.
Qed.

Lemma bfs_enqueue_new l (st : list Node * gset Node) :
  ∃ new, (bfs_enqueue l st).1 = st.1 ++ new ∧
    (bfs_enqueue l st).2 = st.2 ∪ list_to_set new ∧ NoDup new ∧
    (∀ x, x ∈ new → x ∉ st.2) ∧ (∀ x, x ∈ l → x ∈ (bfs_enqueue l st).2).
Proof.
  revert st. induction l as [|y l IH]; intros st.
  - exists []. simpl. rewrite app_nil_r.
    split_and!; [done|set_solver|constructor|by intros x ?%elem_of_nil..].
  - rewrite bfs_enqueue_cons. case_decide as Hy.
    + destruct (IH st) as (new & Hq & HV & Hnd & Hnew & Hall).
      exists new. split_and!; [done..|].
      intros x [->|Hx]%elem_of_cons; [rewrite HV; set_solver|by apply Hall].
    + destruct (IH (st.1 ++ [y], {[y]} ∪ st.2))
        as (new & Hq & HV & Hnd & Hnew & Hall). simpl in *.
      exists (y :: new). split_and!.
      * by rewrite Hq, <- app_assoc.
      * rewrite HV, list_to_set_cons. set_solver.
      * constructor; [|done]. intros Hy'%Hnew. set_solver.
      * intros x [->|Hx%Hnew]%elem_of_cons; [done|set_solver].
      * intros x [->|Hx]%elem_of_cons; [rewrite HV; set_solver|by apply Hall].
Qed.

Lemma bfs_loop_covers fuel g queue (V : gset Node) out :
  bfs_loop fuel g queue V false = Some out →
  NoDup queue → (∀ x, x ∈ queue → x ∈ V) →
  NoDup out ∧ (∀ x, x ∈ queue → x ∈ out) ∧
  (∀ x, x ∈ out → x ∈ queue ∨ x ∉ V) ∧
  ∀ x y, x ∈ out → edge g x y → y ∈ V ∨ y ∈ out.
Proof.
  revert queue V out.
  induction fuel as [|fuel IH]; intros [|node queue] V out; simpl; try done;
    try (intros [= <-] _ _; split_and!;
           [constructor|done|by intros x ?%elem_of_nil|
            by intros x y ?%elem_of_nil]).
  destruct (bfs_loop _ _ _ _ _) as [out'|] eqn:E; [|done].
  intros [= <-] [Hnode Hq]%NoDup_cons HqV.
  destruct (bfs_enqueue_new (adj_get (adj g) node) (queue, V))
    as (new & Hq' & HV' & Hnd & Hnew & Hall). simpl in *.
  apply IH in E as (Hnd' & Hin & Hout & Hcl).
  - assert (node ∈ V) as HnodeV by (apply HqV; set_solver).
    split_and!.
    + constructor; [|done]. intros [Hn|Hn]%Hout.
      * rewrite Hq' in Hn. apply elem_of_app in Hn as [?|Hn%Hnew]; done.
      * apply Hn. rewrite HV'. set_solver.
    + intros x [->|Hx]%elem_of_cons; [set_solver|].
      right. apply Hin. rewrite Hq'. set_solver.
    + intros x [->|Hx]%elem_of_cons; [set_solver|].
      apply Hout in Hx as [Hx|Hx].
      * rewrite Hq' in Hx. apply elem_of_app in Hx as [?|Hx%Hnew]; set_solver.
      * right. intros HxV. apply Hx. rewrite HV'. set_solver.
    + intros x y [->|Hx]%elem_of_cons Hxy.
      * apply Hall in Hxy. rewrite HV' in Hxy.
        apply elem_of_union in Hxy as [?|Hy%elem_of_list_to_set]; [auto|].
        right. right. apply Hin. rewrite Hq'. set_solver.
      * destruct (Hcl x y Hx Hxy) as [Hy|Hy]; [|set_solver].
        rewrite HV' in Hy.
        apply elem_of_union in Hy as [?|Hy%elem_of_list_to_set]; [auto|].
        right. right. apply Hin. rewrite Hq'. set_solver.
  - rewrite Hq'. apply NoDup_app. split_and!; [done| |done].
    intros x Hx Hx'%Hnew. apply Hx'. apply HqV. set_solver.
  - intros x. rewrite Hq', HV'. intros [Hx|Hx]%elem_of_app; [|set_solver].
    apply elem_of_union. left. apply HqV. set_solver.
Qed.

(** What bfs yields is exactly the nodes other than the start that the
    start reaches, each once. *)
Lemma bfs_exact g start :
  ∃ out, bfs g start = Some out ∧ NoDup out ∧
    match default_start g start with
    | Some s => ∀ x, x ∈ out ↔ x ≠ s ∧ tc (edge g) s x
    | None => out = []
    end.
Proof.
  destruct (bfs_yields g start) as (out & Hout & Hsound). exists out.
  split; [done|]. unfold bfs, default_start in *.
  destruct (get_nodes g) as [|k ks] eqn:Hk.
  { injection Hout as <-. split; [constructor|].
    destruct start as [s|]; [|done]. intros x. split; [by intros ?%elem_of_nil|].
    intros [_ (y & Hy & _)%tc_first_step].
    apply edge_get_nodes in Hy. rewrite Hk in Hy. by apply elem_of_nil in Hy. }
  assert (∃ s, default k start = s ∧
            match start with Some s0 => Some s0 | None => head (k :: ks) end
              = Some s) as (s & Hs & Hs') by (destruct start; simpl; eauto).
  rewrite Hs in Hout. rewrite Hs' in Hsound |- *. clear Hs Hs'.
  unfold fuel_bound in Hout. simpl in Hout.
  destruct (bfs_loop _ _ _ _ _) as [out'|] eqn:E; [|done].
  injection Hout as <-.
  destruct (bfs_enqueue_new (adj_get (adj g) s) ([], {[s]}))
    as (new & Hq' & HV' & Hnd & Hnew & Hall). simpl in *.
  apply bfs_loop_covers in E as (Hnd' & Hin & Hout & Hcl).
  - split; [done|]. intros x. split; [apply Hsound|]. intros [Hxs Hp].
    assert (x ∈ ({[s]} ∪ list_to_set out' : gset Node)) as Hx; [|set_solver].
    apply (closed_set_reachable g _ s); [set_solver| |by apply tc_rtc].
    intros a b [Ha%elem_of_singleton|Ha%elem_of_list_to_set]%elem_of_union Hab.
    + subst a. apply Hall in Hab. rewrite HV' in Hab.
      apply elem_of_union in Hab as [?|Hb%elem_of_list_to_set]; [set_solver|].
      apply elem_of_union. right. apply elem_of_list_to_set, Hin.
      by rewrite Hq'.
    + destruct (Hcl a b Ha Hab) as [Hb|Hb]; [|set_solver].
      rewrite HV' in Hb.
      apply elem_of_union in Hb as [?|Hb%elem_of_list_to_set]; [set_solver|].
      apply elem_of_union. right. apply elem_of_list_to_set, Hin.
      by rewrite Hq'.
  - by rewrite Hq'.
  - intros x. rewrite Hq', HV'. set_solver.
Qed.

(** *** dfs within the limit *)

Lemma dfs_limit_total limit g start :
  node_count g < limit → ∃ out, dfs_limit limit g start = Some out.
Proof.
  intros Hn. unfold dfs_limit. rewrite dfs_fuel_default.
  destruct (default_start g start) as [s|].
  - destruct (dfs_fuel_total limit g s ∅) as (r & -> & _);
      [by apply node_count_bound|by eauto].
  - destruct limit; [lia|by eauto].
Qed.

(** Whatever dfs yields within a limit is what the run that is never cut
    short yields. *)
Lemma dfs_limit_agrees limit g start out :
  dfs_limit limit g start = Some out → dfs g start = Some out.
Proof.
  unfold dfs, dfs_limit. rewrite !dfs_fuel_default.
  destruct (default_start g start) as [s|]; [|by destruct limit].
  destruct (dfs_fuel limit g (Some s) (Some ∅)) as [r|] eqn:E; [|done].
  intros [= <-].
  destruct (dfs_fuel_total (fuel_bound g) g s ∅) as (r' & E' & _);
    [apply measure_bound|].
  assert (dfs_fuel (limit `max` fuel_bound g) g (Some s) (Some ∅) = Some r)
    as H1 by (apply (dfs_fuel_mono limit); [lia|done]).
  assert (dfs_fuel (limit `max` fuel_bound g) g (Some s) (Some ∅) = Some r')
    as H2 by (apply (dfs_fuel_mono (fuel_bound g)); [lia|done]).
  rewrite H1 in H2. injection H2 as <-. by rewrite E'.
Qed.

Lemma dfs_limit_exact limit g start :
  node_count g < limit →
  ∃ out, dfs_limit limit g start = Some out ∧ NoDup out ∧
    match default_start g start with
    | Some s => ∀ x, x ∈ out ↔ x ≠ s ∧ tc (edge g) s x
    | None => out = []
    end.
Proof.
  intros Hn. destruct (dfs_limit_total limit g start Hn) as [out Hout].
  exists out. split; [done|]. apply dfs_limit_agrees in Hout.
  destruct (dfs_exact g start) as (out' & Hout' & Hnd & Hs).
  rewrite Hout in Hout'. injection Hout' as <-. done.
Qed.

(** X10: with more frames than the graph mentions identifiers, dfs
    returns, and yields exactly the nodes, other than the start, that the
    start reaches through one or more edges, each of them once. *)
Theorem dfs_limit_yields_reachable_once limit g start :
  node_count g < limit →
  ∃ out, dfs_limit limit g start = Some out ∧ NoDup out ∧
    match default_start g start with
    | Some s => ∀ x, x ∈ out ↔ x ≠ s ∧ tc (edge g) s x
    | None => out = []
    end.
Proof.
  intros Hn. destruct (dfs_limit_exact limit g start Hn)
    as (out & Hout & Hnd & Hs).
  exists out. by split_and!.
Qed.

(** X11: bfs yields exactly the nodes, other than the start, that the
    start reaches through one or more edges, and each of them once. *)
Theorem bfs_yields_reachable_once g start :
  ∃ out, bfs g start = Some out ∧ NoDup out ∧
    match default_start g start with
    | Some s => ∀ x, x ∈ out ↔ x ≠ s ∧ tc (edge g) s x
    | None => out = []
    end.
Proof.
  destruct (bfs_exact g start) as (out & Hout & Hnd & Hs).
  exists out. by split_and!.
Qed.

(** X12: with more frames for dfs than the graph mentions identifiers,
    dfs and bfs from the same start yield the same nodes, in possibly
    different orders. *)
Theorem dfs_limit_bfs_same_nodes limit g start :
  node_count g < limit →
  ∃ d b, dfs_limit limit g start = Some d ∧ bfs g start = Some b ∧ d ≡ₚ b.
Proof.
  intros Hn.
  destruct (dfs_limit_exact limit g start Hn) as (d & Hd & Hndd & Hds).
  destruct (bfs_exact g start) as (b & Hb & Hndb & Hbs).
  exists d, b. split_and!; [done..|].
  destruct (default_start g start) as [s|]; [|by subst].
  apply NoDup_Permutation; [done..|]. intros x. by rewrite Hds, Hbs.
Qed.

(** X13: with more frames than the graph mentions identifiers, the
    search behind the DAG's cycle check agrees with dfs: _has_path(start,
    end) is True exactly when end is start or is yielded by dfs(start). *)
Theorem has_path_limit_iff_dfs limit g s e :
  node_count g < limit →
  ∃ b out, _has_path_limit limit g s e = Some b ∧
    dfs_limit limit g (Some s) = Some out ∧
    (b = true ↔ e = s ∨ e ∈ out).
Proof.
  intros Hn.
  destruct (has_path_limit_spec limit g s e Hn) as (b & Hb & Hbp).
  destruct (dfs_limit_exact limit g (Some s) Hn) as (out & Hout & _ & Hs).
  simpl in Hs. exists b, out. split_and!; [done..|].
  rewrite Hbp, Hs, rtc_tc. destruct (decide (e = s)); naive_solver.
Qed.

(** A call of the DAG's add_edge that returns within a limit returns the
    same graph when it is never cut short: every graph a DAG reaches is in
    [dag_reachable]. *)
Lemma dag_add_edge_limit_returned limit g u v w g' :
  dag_add_edge_limit limit g u v w = Returned g' →
  dag_add_edge g u v w = Some (Returned g').
Proof.
  unfold dag_add_edge_limit, _has_path_limit.
  destruct (_has_path_fuel limit g v u ∅) as [[[] V']|] eqn:E; simpl;
    [done| |done].
  intros [= <-].
  destruct (dag_add_edge_cases g u v w) as [[Hp _]|[_ Hr]]; [|done].
  exfalso. apply has_path_fuel_false in E as (_ & Hs & He & Hcl).
  assert (u ∈ V') as Hin; [|set_solver].
  apply (closed_set_reachable g V' v); [done| |done].
  intros a c Ha Hac. eapply Hcl; [done|set_solver|done].
Qed.

Lemma dag_reachable_built g : dag_reachable g → built g.
Proof.
  induction 1 as [|g node data _ IH|g u v w g' _ IH Hok].
  - constructor.
  - by constructor.
  - destruct (dag_add_edge_cases g u v w) as [[_ Hr]|[_ Hr]];
      rewrite Hr in Hok; [done|].
    injection Hok as <-. by constructor.
Qed.

Lemma dag_reachable_acyclic g : dag_reachable g → acyclic g.
Proof.
  induction 1 as [|g node data _ IH|g u v w g' _ IH Hok].
  - apply acyclic_empty.
  - by apply acyclic_add_node.
  - destruct (dag_add_edge_cases g u v w) as [[_ Hr]|[Hnp Hr]];
      rewrite Hr in Hok; [done|].
    injection Hok as <-. by apply acyclic_add_edge.
Qed.

(** X14: on every graph a DAG goes through, with more frames for visit
    than the graph has nodes, topsort returns a permutation of get_nodes
    in which every edge goes from a smaller to a larger index. *)
Theorem dag_topsort_limit_valid limit g :
  dag_reachable g → length (get_nodes g) < limit →
  ∃ ts, topsort_limit limit g = Some ts ∧ ts ≡ₚ get_nodes g ∧
    ∀ u v, v ∈ successors g u →
      ∃ i j, ts !! i = Some u ∧ ts !! j = Some v ∧ i < j.
Proof.
  intros Hg Hn. pose proof (dag_reachable_built g Hg) as Hb.
  rewrite <- (node_count_built g Hb) in Hn.
  destruct (topsort_limit_total limit g Hn) as [ts Hts]. exists ts.
  pose proof (topsort_limit_agrees limit g ts Hts) as Hts'.
  destruct (topsort_nodup g ts Hts') as (Hnd & Hin & Hout).
  split_and!; [done| |].
  - apply NoDup_Permutation; [done|by apply built_NoDup|].
    intros x. split; [by apply Hout, built_closed|apply Hin].
  - intros u v Huv.
    by apply (topsort_order g ts u v (dag_reachable_acyclic g Hg)).
Qed.

(** X15: with more frames for visit than the graph mentions
    identifiers, topsort tells whether the graph has a cycle: in the
    sequence it returns every edge goes from a smaller to a larger index
    exactly when the graph has no directed cycle. *)
Theorem topsort_limit_valid_iff_acyclic limit g :
  node_count g < limit →
  ∃ ts, topsort_limit limit g = Some ts ∧
    (acyclic g ↔
     ∀ u v, edge g u v → ∃ i j, ts !! i = Some u ∧ ts !! j = Some v ∧ i < j).
Proof.
  intros Hn. destruct (topsort_limit_total limit g Hn) as [ts Hts].
  exists ts. split; [done|]. apply topsort_limit_agrees in Hts.
  split; [intros Hac u v Huv; by eapply topsort_order|].
  intros Hall.
  destruct (topsort_nodup g ts Hts) as (Hnd & _ & _).
  assert (∀ x y, tc (edge g) x y →
            ∃ i j, ts !! i = Some x ∧ ts !! j = Some y ∧ i < j) as Htc.
  { induction 1 as [x y Hxy|x y z Hxy _ IH]; [by apply Hall|].
    destruct (Hall x y Hxy) as (i & j & Hi & Hj & Hij).
    destruct IH as (j' & k & Hj' & Hk & Hjk).
    rewrite (NoDup_lookup ts j j' y Hnd Hj Hj') in Hij.
    exists i, k. split_and!; [done..|lia]. }
  intros x (i & j & Hi & Hj & Hij)%Htc.
  rewrite (NoDup_lookup ts i j x Hnd Hi Hj) in Hij. lia.
Qed.


(** ** bfs yields the nodes by distance *)

Lemma bsteps_0_inv (R : relation Node) x y : bsteps R 0 x y → x = y.
Proof. by inversion 1. Qed.

Lemma bsteps_S_inv_r (R : relation Node) n x z :
  bsteps R (S n) x z → bsteps R n x z ∨ ∃ y, bsteps R n x y ∧ R y z.
Proof.
  intros Hz.
  apply (bsteps_ind_r (R:=R)
           (λ m z, match m with
                   | 0 => z = x
                   | S n => bsteps R n x z ∨ ∃ y, bsteps R n x y ∧ R y z
                   end) x) with (n := S n) (z := z); [| |done].
  - intros [|m]; [done|]. left. apply bsteps_refl.
  - intros m y z' Hy Hyz _. right. eauto.
Qed.

Lemma bfs_inv_next g s d q2 (V : gset Node) :
  bfs_inv g s d [] q2 V → bfs_inv g s (S d) q2 [] V.
Proof.
  intros (_ & H2 & HV & Hcl).
  assert (∀ x, x ∈ V ↔ bsteps (edge g) (S d) s x) as HV'.
  { intros x. rewrite HV. split.
    - intros [Hx|Hx]; [by apply bsteps_S|by apply H2].
    - intros [Hx|(y & Hy & Hyx)]%bsteps_S_inv_r; [auto|].
      apply HV. eapply Hcl; [done| |done]. by intros ?%elem_of_nil. }
  split_and!.
  - intros x Hx. destruct (H2 x Hx) as [Hx1 Hx2]. split; [done|].
    intros k Hk Hxk. apply Hx2. eapply bsteps_weaken; [|done]. lia.
  - by intros x ?%elem_of_nil.
  - intros x. rewrite HV'. split; [auto|]. intros [?|?%elem_of_nil]; done.
  - intros x y Hx Hxq Hxy. apply HV' in Hx. apply HV in Hx as [Hx|Hx]; [|done].
    eapply Hcl; [done| |done]. by intros ?%elem_of_nil.
Qed.

Lemma bfs_inv_step g s d node q1 q2 (V : gset Node) :
  bfs_inv g s d (node :: q1) q2 V →
  ∃ new,
    (bfs_enqueue (adj_get (adj g) node) (q1 ++ q2, V)).1 = q1 ++ (q2 ++ new) ∧
    bfs_inv g s d q1 (q2 ++ new)
      (bfs_enqueue (adj_get (adj g) node) (q1 ++ q2, V)).2.
Proof.
  intros (H1 & H2 & HV & Hcl).
  destruct (bfs_enqueue_new (adj_get (adj g) node) (q1 ++ q2, V))
    as (new & Hq & HV' & _ & Hnew & Hall). simpl in *.
  exists new. split; [by rewrite Hq, app_assoc|].
  destruct (H1 node) as [Hnode _]; [set_solver|].
  assert (∀ x, x ∈ new → edge g node x) as Hedge.
  { intros x Hx. assert (x ∈ (bfs_enqueue (adj_get (adj g) node) (q1 ++ q2, V)).1)
      as Hx' by (rewrite Hq; set_solver).
    apply bfs_enqueue_spec in Hx' as [Hx'|[Hx' _]]; [|done]. simpl in Hx'.
    destruct (Hnew x Hx). apply HV.
    apply elem_of_app in Hx' as [Hx'|Hx']; [|auto].
    left. apply H1. set_solver. }
  split_and!.
  - intros x Hx. apply H1. set_solver.
  - intros x [Hx|Hx]%elem_of_app; [by apply H2|]. split.
    + eapply bsteps_r; [done|by apply Hedge].
    + intros Hxd. apply (Hnew x Hx), HV. auto.
  - intros x. rewrite HV', elem_of_union, HV, elem_of_list_to_set, elem_of_app.
    tauto.
  - intros x y Hx Hxq Hxy. rewrite HV'. destruct (decide (x = node)) as [->|Hxn].
    + rewrite <- HV'. by apply Hall.
    + apply elem_of_union. left. eapply Hcl; [done| |done]. set_solver.
Qed.

Lemma bfs_loop_levels fuel g s queue (V : gset Node) out d q1 q2 :
  bfs_loop fuel g queue V false = Some out →
  queue = q1 ++ q2 → bfs_inv g s d q1 q2 V →
  (∀ y, y ∈ out → ∀ k, bsteps (edge g) k s y → d ≤ k) ∧ by_distance g s out.
Proof.
  revert queue V out d q1 q2.
  induction fuel as [|fuel IH]; intros [|node rest] V out d q1 q2; simpl;
    try done;
    try (intros [= <-] _ _; split; [by intros y ?%elem_of_nil|];
         intros i j x y _ Hi; by rewrite lookup_nil in Hi).
  destruct (bfs_loop _ _ _ _ _) as [out'|] eqn:E; [|done].
  intros [= <-] Hq Hinv.
  assert (∃ d' q1r q2', d ≤ d' ∧ rest = q1r ++ q2' ∧
            bfs_inv g s d' (node :: q1r) q2' V) as (d' & q1r & q2' & Hd & -> & Hinv').
  { destruct q1 as [|n q1r]; simpl in Hq.
    - subst q2. exists (S d), rest, []. rewrite app_nil_r.
      split_and!; [lia|done|by apply bfs_inv_next].
    - injection Hq as <- ->. exists d, q1r, q2. by split_and!. }
  destruct (bfs_inv_step _ _ _ _ _ _ _ Hinv') as (new & Hq' & Hinv'').
  destruct (IH _ _ _ _ _ _ E Hq' Hinv'') as [Hlow Hsorted].
  destruct Hinv' as (H1 & _). destruct (H1 node) as [Hnode Hnode']; [set_solver|].
  split.
  - intros y [->|Hy]%elem_of_cons k Hk.
    + destruct (decide (d ≤ k)); [done|]. destruct (Hnode' k); [lia|done].
    + specialize (Hlow y Hy k Hk). lia.
  - intros [|i] [|j] x y Hij Hi Hj k Hk; simpl in *; try lia.
    + injection Hi as <-. eapply bsteps_weaken; [|done].
      apply (Hlow y); [by eapply list_elem_of_lookup_2|done].
    + apply (Hsorted i j x y); [lia|done..].
Qed.

(** X17: bfs yields the nodes in order of their distance from the start:
    a node yielded later is never reachable in fewer steps than a node
    yielded before it. *)
Theorem bfs_by_distance g start :
  ∃ out, bfs g start = Some out ∧
    match default_start g start with
    | Some s =>
        ∀ i j x y, i < j → out !! i = Some x → out !! j = Some y →
          ∀ k, bsteps (edge g) k s y → bsteps (edge g) k s x
    | None => out = []
    end.
Proof.
  destruct (bfs_yields g start) as (out & Hout & _). exists out.
  split; [done|]. unfold bfs, default_start in *.
  destruct (get_nodes g) as [|k ks] eqn:Hk.
  { injection Hout as <-. destruct start as [s|]; [|done].
    intros i j x y _ Hi. by rewrite lookup_nil in Hi. }
  assert (∃ s, default k start = s ∧
            match start with Some s0 => Some s0 | None => head (k :: ks) end
              = Some s) as (s & Hs & ->) by (destruct start; simpl; eauto).
  rewrite Hs in Hout. clear Hs.
  unfold fuel_bound in Hout. simpl in Hout.
  destruct (bfs_loop _ _ _ _ _) as [out'|] eqn:E; [|done].
  injection Hout as <-.
  assert (bfs_inv g s 0 [s] [] {[s]}) as Hinv.
  { split_and!.
    - intros x ->%list_elem_of_singleton. split; [apply bsteps_refl|lia].
    - by intros x ?%elem_of_nil.
    - intros x. rewrite elem_of_singleton. split.
      + intros ->. left. apply bsteps_refl.
      + intros [?%bsteps_0_inv|?%elem_of_nil]; done.
    - intros x y <-%bsteps_0_inv Hx. destruct Hx. set_solver. }
  destruct (bfs_inv_step _ _ _ _ _ _ _ Hinv) as (new & Hq' & Hinv').
  simpl in *.
  by destruct (bfs_loop_levels _ _ s _ _ _ 0 [] new E Hq' Hinv')
    as [_ Hsorted].
Qed.

(** ** topsort without edges *)

Lemma visit_no_successor fuel g x (V : gset Node) (R : list Node) :
  adj_get (adj g) x = [] → x ∉ V →
  visit (S fuel) g x (V, R) = Some ({[x]} ∪ V, R ++ [x]).
Proof. intros Hadj Hx. simpl. by rewrite decide_False, Hadj. Qed.

Lemma visit_isolated fuel g l (V : gset Node) (R : list Node) :
  (∀ x, x ∈ l → adj_get (adj g) x = []) → NoDup l → (∀ x, x ∈ l → x ∉ V) →
  ∃ V', for_each (visit (S fuel) g) l (V, R) = Some (V', R ++ l).
Proof.
  revert V R. induction l as [|x l IH]; intros V R Hadj Hnd HV.
  - exists V. simpl. by rewrite app_nil_r.
  - apply NoDup_cons in Hnd as [Hx Hnd]. cbn [for_each].
    rewrite visit_no_successor; [|apply Hadj; set_solver|apply HV; set_solver].
    destruct (IH ({[x]} ∪ V) (R ++ [x])) as [V' HV']; [| |set_solver|].
    + intros y Hy. apply Hadj. set_solver.
    + done.
    + exists V'. by rewrite HV', <- app_assoc.
Qed.

(** X18: on a graph without edges topsort returns the nodes in the
    reverse of their insertion order. *)
Theorem topsort_no_edges g :
  built g → (∀ u, successors g u = []) →
  topsort g = Some (reverse (get_nodes g)).
Proof.
  intros Hg Hno. unfold topsort, fuel_bound.
  destruct (visit_isolated (length (all_nodes g)) g (get_nodes g) ∅ [])
    as [V' ->]; [by intros x _; apply Hno|by apply built_NoDup|set_solver|].
  done.
Qed.

End Graph.

(** * Concrete graphs *)

(** C8: on the diamond built by add_edge("A","B"), add_edge("A","C"),
    add_edge("B","D"), add_edge("C","D"), dfs("A") yields B, D, C and
    bfs("A") yields B, C, D. *)
Theorem diamond_traversals (D W : Type) :
  dfs (diamond (D:=D) (W:=W) "A" "B" "C" "D") (Some "A")
    = Some ["B"; "D"; "C"] ∧
  bfs (diamond (D:=D) (W:=W) "A" "B" "C" "D") (Some "A")
    = Some ["B"; "C"; "D"].
Proof. split; vm_compute; reflexivity. Qed.

(** The base graph takes a cycle, and topsort still lists both nodes. *)
Example two_cycle_topsort (D W : Type) :
  topsort (two_cycle (D:=D) (W:=W) "A" "B") = Some ["A"; "B"] ∧
  tc (edge (two_cycle (D:=D) (W:=W) "A" "B")) "A" "A".
Proof.
  split; [vm_compute; reflexivity|].
  unfold two_cycle. apply (tc_l _ _ "B").
  - apply edge_add_edge. left. apply edge_add_edge. auto.
  - apply tc_once, edge_add_edge. auto.
Qed.

(** The demonstration of the source: the seven edges are accepted, the
    nodes are sorted, and the edge jacket -> shirt is refused. *)
Example dressing_demo :
  ∃ g : graph (Node:=string) (D:=unit) (W:=unit),
    dag_add_edges empty_graph dressing = Some (Returned g) ∧
    topsort g
      = Some ["socks"; "pants"; "shoes"; "shirt"; "belt"; "tie"; "jacket"] ∧
    dag_add_edge g "jacket" "shirt" None
      = Some (Raised (ValueError "jacket" "shirt") g).
Proof. eexists. split_and!; vm_compute; reflexivity. Qed.

Local Abbreviation ABCD := (diamond (D:=unit) (W:=unit) "A" "B" "C" "D").
Local Abbreviation AB := (single_edge (D:=unit) (W:=unit) "A" "B").

Lemma diamond_dag_reachable : dag_reachable ABCD.
Proof.
  unfold diamond.
  repeat (apply dag_reachable_add_edge; [|vm_compute; reflexivity]).
  apply dag_init.
Qed.

Lemma diamond_acyclic : acyclic ABCD.
Proof.
  unfold diamond.
  repeat (apply acyclic_add_edge;
          [|apply has_path_false; vm_compute; reflexivity]).
  apply acyclic_empty.
Qed.

Lemma diamond_NoDup : NoDup (get_nodes ABCD).
Proof.
  unfold diamond. repeat apply NoDup_get_nodes_add_edge. constructor.
Qed.

Lemma dag_no_cycle_witness : dag_reachable ABCD ∧ acyclic ABCD.
Proof.
  split; [apply diamond_dag_reachable|].
  apply (dag_no_cycle ABCD), diamond_dag_reachable.
Defined.

Lemma diamond_built : built ABCD.
Proof. unfold diamond. repeat constructor. Qed.

Lemma diamond_node_count : node_count ABCD < 10.
Proof.
  rewrite (node_count_built ABCD diamond_built). vm_compute. lia.
Qed.



Lemma topsort_limit_topological_witness :
  ∃ ts, topsort_limit 10 ABCD = Some ts ∧ NoDup ts ∧
    ∀ u v, edge ABCD u v →
      ∃ i j, ts !! i = Some u ∧ ts !! j = Some v ∧ i < j.
Proof.
  apply (topsort_limit_topological 10 ABCD);
    [apply diamond_acyclic|apply diamond_node_count].
Defined.

Lemma topsort_limit_lists_every_node_witness :
  ∃ ts, topsort_limit 10 ABCD = Some ts ∧ NoDup ts ∧
    (∀ x, x ∈ get_nodes ABCD → x ∈ ts) ∧
    (closed ABCD → ∀ x, x ∈ ts → x ∈ get_nodes ABCD).
Proof.
  apply (topsort_limit_lists_every_node 10 ABCD), diamond_node_count.
Defined.

Lemma add_edge_twice_witness :
  successors (add_edge ABCD "A" "B" (Some tt)) "A" = ["B"; "C"; "B"] ∧
  length (filter (λ x, x = "A")
            (predecessors
               (add_edge (add_edge ABCD "A" "B" (Some tt)) "A" "B" None)
               "B")) = 1.
Proof.
  destruct (add_edge_twice ABCD "A" "B" (Some tt) None diamond_NoDup)
    as (H1 & _ & _ & H4).
  split; [exact H1|exact H4].
Defined.

Lemma traversal_unknown_start_witness :
  dfs ABCD (Some "Z") = Some [] ∧ bfs ABCD (Some "Z") = Some [].
Proof.
  apply (traversal_unknown_start ABCD "Z").
  vm_compute. intros Hin.
  repeat (apply elem_of_cons in Hin as [Hin|Hin]; [done|]).
  by apply elem_of_nil in Hin.
Defined.

Lemma built_nodes_once_witness :
  NoDup (get_nodes ABCD) ∧
  ∀ u v, v ∈ successors ABCD u → u ∈ get_nodes ABCD ∧ v ∈ get_nodes ABCD.
Proof. apply (built_nodes_once ABCD), diamond_built. Defined.

Lemma get_node_value_add_edge_witness :
  get_node_value (add_edge ABCD "D" "E" None) "E" = get_node_value ABCD "E".
Proof. apply (get_node_value_add_edge ABCD "D" "E" None "E"), diamond_built. Defined.

Lemma get_edge_weight_edge_witness :
  "E" ∈ successors (add_edge ABCD "D" "E" (Some tt)) "D".
Proof.
  apply (get_edge_weight_edge (add_edge ABCD "D" "E" (Some tt)) "D" "E").
  - constructor. apply diamond_built.
  - exists tt. vm_compute. reflexivity.
Defined.

Lemma predecessors_successors_witness :
  ("B" ∈ predecessors ABCD "D" ↔ "D" ∈ successors ABCD "B") ∧
  NoDup (predecessors ABCD "D") ∧
  predecessors ABCD "D" `sublist_of` get_nodes ABCD.
Proof. apply (predecessors_successors ABCD "B" "D"), diamond_built. Defined.

Lemma unknown_node_lookups_witness :
  get_node_value ABCD "Z" = None ∧ successors ABCD "Z" = [] ∧
  predecessors ABCD "Z" = [] ∧
  ∀ x, get_edge_weight ABCD "Z" x = None ∧ get_edge_weight ABCD x "Z" = None.
Proof.
  apply (unknown_node_lookups ABCD "Z"); [apply diamond_built|].
  vm_compute. intros Hin.
  repeat (apply elem_of_cons in Hin as [Hin|Hin]; [done|]).
  by apply elem_of_nil in Hin.
Defined.

Lemma dag_topsort_limit_valid_witness :
  ∃ ts, topsort_limit 10 ABCD = Some ts ∧ ts ≡ₚ get_nodes ABCD ∧
    ∀ u v, v ∈ successors ABCD u →
      ∃ i j, ts !! i = Some u ∧ ts !! j = Some v ∧ i < j.
Proof.
  apply (dag_topsort_limit_valid 10 ABCD); [apply diamond_dag_reachable|].
  vm_compute. lia.
Defined.


Lemma dfs_limit_yields_reachable_once_witness :
  ∃ out, dfs_limit 10 ABCD (Some "A") = Some out ∧ NoDup out ∧
    ∀ x, x ∈ out ↔ x ≠ "A" ∧ tc (edge ABCD) "A" x.
Proof.
  apply (dfs_limit_yields_reachable_once 10 ABCD (Some "A")),
    diamond_node_count.
Defined.

Lemma dfs_limit_bfs_same_nodes_witness :
  ∃ d b, dfs_limit 10 ABCD (Some "A") = Some d ∧
    bfs ABCD (Some "A") = Some b ∧ d ≡ₚ b.
Proof.
  apply (dfs_limit_bfs_same_nodes 10 ABCD (Some "A")), diamond_node_count.
Defined.

Lemma has_path_limit_iff_dfs_witness :
  ∃ b out, _has_path_limit 10 ABCD "A" "D" = Some b ∧
    dfs_limit 10 ABCD (Some "A") = Some out ∧
    (b = true ↔ "D" = "A" ∨ "D" ∈ out).
Proof.
  apply (has_path_limit_iff_dfs 10 ABCD "A" "D"), diamond_node_count.
Defined.

Lemma topsort_limit_valid_iff_acyclic_witness :
  ∃ ts, topsort_limit 10 ABCD = Some ts ∧
    (acyclic ABCD ↔
     ∀ u v, edge ABCD u v →
       ∃ i j, ts !! i = Some u ∧ ts !! j = Some v ∧ i < j).
Proof.
  apply (topsort_limit_valid_iff_acyclic 10 ABCD), diamond_node_count.
Defined.

(** ** The chain of 1000 edges with 1000 frames *)

Local Abbreviation CH1000 :=
  (chain (Node:=nat) (D:=unit) (W:=unit) id 1000).


(** C4, counterexample: the chain has no cycle, yet topsort raises
    RecursionError on it with 1000 frames or fewer. *)
Lemma topsort_deep_chain_acyclic :
  acyclic CH1000 ∧ ∀ limit, limit ≤ 1000 → topsort_limit limit CH1000 = None.
Proof.
  split.
  - apply (acyclic_chain id 1000).
  - intros limit Hl. by apply (topsort_chain_overflow id 999 limit).
Qed.

(** C6, counterexample: the chain is built by add_edge alone, yet topsort
    raises RecursionError on it with 1000 frames or fewer. *)
Lemma topsort_deep_chain_raises :
  built CH1000 ∧ ∀ limit, limit ≤ 1000 → topsort_limit limit CH1000 = None.
Proof.
  split.
  - apply (built_chain id 1000).
  - intros limit Hl. by apply (topsort_chain_overflow id 999 limit).
Qed.

Lemma topsort_no_edges_witness :
  topsort (two_nodes (D:=unit) (W:=unit) "A" "B") = Some ["B"; "A"].
Proof.
  rewrite (topsort_no_edges (two_nodes "A" "B")).
  - vm_compute. reflexivity.
  - unfold two_nodes. repeat constructor.
  - intros u. unfold successors. simpl. by repeat case_decide.
Defined.
